(** * DatabaseManager: the connection pool and transactional query manager

    A shallow embedding of [databaseManager.js] (the [DatabaseManager]
    singleton): its private fields become a record, the connection objects
    live in a store addressed by reference (the pool [Map] and the callers
    share them), and every [async] method is a function from the world to
    the outcome of its promise. *)

From Stdlib Require Import ZArith String List Bool Lia.
From stdpp Require Import base tactics option list strings.
Import ListNotations.
Local Open Scope string_scope.
Local Open Scope Z_scope.
Local Open Scope list_scope.

(** ** JavaScript values and thrown values *)

(** The values a caller can pass where the code expects a query string. *)
Inductive JSValue :=
  | JSUndefined
  | JSNull
  | JSBoolean (b : bool)
  | JSNumber (n : Z)
  | JSString (s : string)
  | JSArray
  | JSObject
  | JSFunction.

(** [typeof v] *)
Definition typeof (v : JSValue) : string :=
  match v with
  | JSUndefined => "undefined"
  | JSNull => "object"
  | JSBoolean _ => "boolean"
  | JSNumber _ => "number"
  | JSString _ => "string"
  | JSArray => "object"
  | JSObject => "object"
  | JSFunction => "function"
  end.

(** [!!v]: the truthiness used by [!query]. *)
Definition truthy (v : JSValue) : bool :=
  match v with
  | JSUndefined => false
  | JSNull => false
  | JSBoolean b => b
  | JSNumber n => negb (n =? 0)%Z
  | JSString s => negb (String.eqb s "")
  | JSArray => true
  | JSObject => true
  | JSFunction => true
  end.

(** What a [throw] carries: an [Error] object with its message, a
    [TypeError] raised by the runtime, or any other value
    ([throw lastError] throws [undefined] when no attempt was made). *)
Inductive Thrown :=
  | Error (message : string)
  | TypeError (message : string)
  | ThrownValue (v : JSValue).

(** Reading [error.message] throws when [error] is [undefined] or [null]. *)
Definition message_unreadable (e : Thrown) : bool :=
  match e with
  | ThrownValue JSUndefined => true
  | ThrownValue JSNull => true
  | _ => false
  end.

(** ** Connections *)

(** The id [conn_<Date.now()>_<base-36 digits>] is kept as the two parts it
    is printed from: two ids are the same string exactly when both parts
    agree. *)
Record ConnId := { stamp : Z; suffix : string }.

#[global] Instance ConnId_eq_dec : EqDecision ConnId.
Proof. solve_decision. Defined.

(** A connection object. [transactionActive] is absent ([None]) until the
    first transaction begins on the connection. *)
Record Connection := {
  conn_id : ConnId;
  createdAt : Z;
  lastUsed : Z;
  inUse : bool;
  transactionActive : option bool
}.

Definition set_inUse (b : bool) (c : Connection) : Connection :=
  {| conn_id := conn_id c; createdAt := createdAt c; lastUsed := lastUsed c;
     inUse := b; transactionActive := transactionActive c |}.

Definition set_lastUsed (t : Z) (c : Connection) : Connection :=
  {| conn_id := conn_id c; createdAt := createdAt c; lastUsed := t;
     inUse := inUse c; transactionActive := transactionActive c |}.

Definition set_transactionActive (b : bool) (c : Connection) : Connection :=
  {| conn_id := conn_id c; createdAt := createdAt c; lastUsed := lastUsed c;
     inUse := inUse c; transactionActive := Some b |}.

(** ** The pool: a [Map] from id to connection object

    A JavaScript [Map] iterates in insertion order and [#getConnection]
    takes the first free entry, so the pool is an association list; the
    values are references into the store of connection objects. *)
Definition Pool := list (ConnId * nat).

Definition pool_has (k : ConnId) (p : Pool) : bool :=
  existsb (fun e => bool_decide (fst e = k)) p.

(** [Map.prototype.set]: an existing key keeps its place, a new key goes
    last. *)
Fixpoint pool_set (k : ConnId) (r : nat) (p : Pool) : Pool :=
  match p with
  | [] => [(k, r)]
  | (k', r') :: p' =>
      if bool_decide (k' = k) then (k, r) :: p' else (k', r') :: pool_set k r p'
  end.

(** [Map.prototype.delete] *)
Definition pool_delete (k : ConnId) (p : Pool) : Pool :=
  List.filter (fun e => negb (bool_decide (fst e = k))) p.

(** ** The manager and its world *)

Inductive ConnectionState := DISCONNECTED | CONNECTING | CONNECTED | ERROR.

#[global] Instance ConnectionState_eq_dec : EqDecision ConnectionState.
Proof. solve_decision. Defined.

Record Stats := {
  totalQueries : Z;
  successfulQueries : Z;
  failedQueries : Z;
  activeConnections : Z;
  connectionErrors : Z
}.

(** What the simulator does, in order: the events emitted to listeners,
    each run of the unit of work and the connection it ran on, each retry
    delay, each invocation of a transaction callback. *)
Inductive Event :=
  | EvEmit (event : string)
  | EvExecuteQuery (connection : nat) (succeeded : bool)
  | EvDelay (ms : Z)
  | EvCallback (connection : nat).

(** The private fields of the manager, the store of connection objects,
    the clock, and the sources of [Math.random()]: the outcome of each
    [Math.random() > 0.1] of [#simulateConnection], of each
    [Math.random() > 0.05] of [#executeQuery], and the digits drawn for
    each id, with the number of draws made so far.

    The five settings are whole numbers here. The code stores what
    [configure] is given without validating it; a manager configured with
    a fraction, [NaN], an infinity or a value that is not a number is
    outside this development, and every statement below is about
    managers with whole-number settings. *)
Record World := {
  connectionState : ConnectionState;
  connectionPool : Pool;
  maxConnections : Z;
  connectionTimeout : Z;
  queryTimeout : Z;
  retryAttempts : Z;
  retryDelay : Z;
  stats : Stats;
  store : list Connection;
  now : Z;
  connectDraw : nat -> bool;
  connectDraws : nat;
  queryDraw : nat -> bool;
  queryDraws : nat;
  suffixDraw : nat -> string;
  suffixDraws : nat;
  trace : list Event
}.

Definition set_connectionState (x : ConnectionState) (w : World) : World :=
  {| connectionState := x; connectionPool := connectionPool w;
     maxConnections := maxConnections w; connectionTimeout := connectionTimeout w;
     queryTimeout := queryTimeout w; retryAttempts := retryAttempts w;
     retryDelay := retryDelay w; stats := stats w; store := store w; now := now w;
     connectDraw := connectDraw w; connectDraws := connectDraws w;
     queryDraw := queryDraw w; queryDraws := queryDraws w;
     suffixDraw := suffixDraw w; suffixDraws := suffixDraws w; trace := trace w |}.

Definition set_connectionPool (x : Pool) (w : World) : World :=
  {| connectionState := connectionState w; connectionPool := x;
     maxConnections := maxConnections w; connectionTimeout := connectionTimeout w;
     queryTimeout := queryTimeout w; retryAttempts := retryAttempts w;
     retryDelay := retryDelay w; stats := stats w; store := store w; now := now w;
     connectDraw := connectDraw w; connectDraws := connectDraws w;
     queryDraw := queryDraw w; queryDraws := queryDraws w;
     suffixDraw := suffixDraw w; suffixDraws := suffixDraws w; trace := trace w |}.

Definition set_stats (x : Stats) (w : World) : World :=
  {| connectionState := connectionState w; connectionPool := connectionPool w;
     maxConnections := maxConnections w; connectionTimeout := connectionTimeout w;
     queryTimeout := queryTimeout w; retryAttempts := retryAttempts w;
     retryDelay := retryDelay w; stats := x; store := store w; now := now w;
     connectDraw := connectDraw w; connectDraws := connectDraws w;
     queryDraw := queryDraw w; queryDraws := queryDraws w;
     suffixDraw := suffixDraw w; suffixDraws := suffixDraws w; trace := trace w |}.

Definition set_store (x : list Connection) (w : World) : World :=
  {| connectionState := connectionState w; connectionPool := connectionPool w;
     maxConnections := maxConnections w; connectionTimeout := connectionTimeout w;
     queryTimeout := queryTimeout w; retryAttempts := retryAttempts w;
     retryDelay := retryDelay w; stats := stats w; store := x; now := now w;
     connectDraw := connectDraw w; connectDraws := connectDraws w;
     queryDraw := queryDraw w; queryDraws := queryDraws w;
     suffixDraw := suffixDraw w; suffixDraws := suffixDraws w; trace := trace w |}.

Definition set_now (x : Z) (w : World) : World :=
  {| connectionState := connectionState w; connectionPool := connectionPool w;
     maxConnections := maxConnections w; connectionTimeout := connectionTimeout w;
     queryTimeout := queryTimeout w; retryAttempts := retryAttempts w;
     retryDelay := retryDelay w; stats := stats w; store := store w; now := x;
     connectDraw := connectDraw w; connectDraws := connectDraws w;
     queryDraw := queryDraw w; queryDraws := queryDraws w;
     suffixDraw := suffixDraw w; suffixDraws := suffixDraws w; trace := trace w |}.

Definition set_trace (x : list Event) (w : World) : World :=
  {| connectionState := connectionState w; connectionPool := connectionPool w;
     maxConnections := maxConnections w; connectionTimeout := connectionTimeout w;
     queryTimeout := queryTimeout w; retryAttempts := retryAttempts w;
     retryDelay := retryDelay w; stats := stats w; store := store w; now := now w;
     connectDraw := connectDraw w; connectDraws := connectDraws w;
     queryDraw := queryDraw w; queryDraws := queryDraws w;
     suffixDraw := suffixDraw w; suffixDraws := suffixDraws w; trace := x |}.

Definition set_draws (c q s : nat) (w : World) : World :=
  {| connectionState := connectionState w; connectionPool := connectionPool w;
     maxConnections := maxConnections w; connectionTimeout := connectionTimeout w;
     queryTimeout := queryTimeout w; retryAttempts := retryAttempts w;
     retryDelay := retryDelay w; stats := stats w; store := store w; now := now w;
     connectDraw := connectDraw w; connectDraws := c;
     queryDraw := queryDraw w; queryDraws := q;
     suffixDraw := suffixDraw w; suffixDraws := s; trace := trace w |}.

Definition set_settings (maxC cT qT rA rD : Z) (w : World) : World :=
  {| connectionState := connectionState w; connectionPool := connectionPool w;
     maxConnections := maxC; connectionTimeout := cT;
     queryTimeout := qT; retryAttempts := rA;
     retryDelay := rD; stats := stats w; store := store w; now := now w;
     connectDraw := connectDraw w; connectDraws := connectDraws w;
     queryDraw := queryDraw w; queryDraws := queryDraws w;
     suffixDraw := suffixDraw w; suffixDraws := suffixDraws w; trace := trace w |}.

Definition set_activeConnections (n : Z) (s : Stats) : Stats :=
  {| totalQueries := totalQueries s; successfulQueries := successfulQueries s;
     failedQueries := failedQueries s; activeConnections := n;
     connectionErrors := connectionErrors s |}.

(** [this.#stats.totalQueries++] and its siblings. *)
Definition incr_totalQueries (s : Stats) : Stats :=
  {| totalQueries := totalQueries s + 1; successfulQueries := successfulQueries s;
     failedQueries := failedQueries s; activeConnections := activeConnections s;
     connectionErrors := connectionErrors s |}.

Definition incr_successfulQueries (s : Stats) : Stats :=
  {| totalQueries := totalQueries s; successfulQueries := successfulQueries s + 1;
     failedQueries := failedQueries s; activeConnections := activeConnections s;
     connectionErrors := connectionErrors s |}.

Definition incr_failedQueries (s : Stats) : Stats :=
  {| totalQueries := totalQueries s; successfulQueries := successfulQueries s;
     failedQueries := failedQueries s + 1; activeConnections := activeConnections s;
     connectionErrors := connectionErrors s |}.

Definition incr_connectionErrors (s : Stats) : Stats :=
  {| totalQueries := totalQueries s; successfulQueries := successfulQueries s;
     failedQueries := failedQueries s; activeConnections := activeConnections s;
     connectionErrors := connectionErrors s + 1 |}.

(** The state of a fresh manager, as the constructor leaves it, in a world
    with the given clock and sources of randomness. *)
Definition constructor (t : Z) (cd qd : nat -> bool) (sd : nat -> string) : World :=
  {| connectionState := DISCONNECTED; connectionPool := [];
     maxConnections := 10; connectionTimeout := 30000; queryTimeout := 10000;
     retryAttempts := 3; retryDelay := 1000;
     stats := {| totalQueries := 0; successfulQueries := 0; failedQueries := 0;
                 activeConnections := 0; connectionErrors := 0 |};
     store := []; now := t;
     connectDraw := cd; connectDraws := 0%nat;
     queryDraw := qd; queryDraws := 0%nat;
     suffixDraw := sd; suffixDraws := 0%nat; trace := [] |}.

(** ** Promises

    An [async] method run to completion without interleaving: its promise
    resolves, rejects, or never settles. *)
Inductive Outcome (A : Type) :=
  | Resolved (value : A) (w : World)
  | Rejected (error : Thrown) (w : World)
  | Pending.
Arguments Resolved {A} value w.
Arguments Rejected {A} error w.
Arguments Pending {A}.

Definition Async (A : Type) : Type := World -> Outcome A.

Definition ret {A} (a : A) : Async A := fun w => Resolved a w.

Definition throw {A} (e : Thrown) : Async A := fun w => Rejected e w.

(** [await m; k] *)
Definition bind {A B} (m : Async A) (k : A -> Async B) : Async B :=
  fun w =>
    match m w with
    | Resolved a w' => k a w'
    | Rejected e w' => Rejected e w'
    | Pending => Pending
    end.

(** [try { body } catch (error) { handler }] *)
Definition try_catch {A} (body : Async A) (handler : Thrown -> Async A) : Async A :=
  fun w =>
    match body w with
    | Resolved a w' => Resolved a w'
    | Rejected e w' => handler e w'
    | Pending => Pending
    end.

(** [try { body } finally { finalizer }], for a finalizer that neither
    awaits nor throws. *)
Definition try_finally {A} (body : Async A) (finalizer : World -> World) : Async A :=
  fun w =>
    match body w with
    | Resolved a w' => Resolved a (finalizer w')
    | Rejected e w' => Rejected e (finalizer w')
    | Pending => Pending
    end.

(** A synchronous statement. *)
Definition effect (f : World -> World) : Async unit := fun w => Resolved tt (f w).

Declare Scope async_scope.
Delimit Scope async_scope with async.
Notation "x <- m ;; k" := (bind m (fun x => k))
  (at level 100, m at next level, right associativity) : async_scope.
Notation "m ;; k" := (bind m (fun _ => k))
  (at level 100, right associativity) : async_scope.
Local Open Scope async_scope.

(** ** Timers, the log, and [#emit] *)

(** The time a [setTimeout(..., ms)] takes. Node keeps a delay between 1
    and [2^31 - 1] and sets any other to 1. *)
Definition timerDuration (ms : Z) : Z :=
  if (1 <=? ms)%Z && (ms <=? 2147483647)%Z then ms else 1.

(** Time passes while a [setTimeout(..., ms)] is awaited. *)
Definition advance (ms : Z) (w : World) : World := set_now (now w + timerDuration ms) w.

Definition sleep (ms : Z) : Async unit := effect (advance ms).

Definition log (e : Event) (w : World) : World := set_trace (trace w ++ [e]) w.

(** [#emit(event)]: the listeners are outside the model; the emission is
    logged. *)
Definition emit (event : string) : Async unit := effect (log (EvEmit event)).

(** [#delay(ms)] *)
Definition delay (ms : Z) : Async unit := effect (log (EvDelay ms)) ;; sleep ms.

(** ** [configure] *)

(** The options object: each of the five settings, when given, is a whole
    number (see [World]); [None] is a property left out or [undefined]. *)
Record Options := {
  opt_maxConnections : option Z;
  opt_connectionTimeout : option Z;
  opt_queryTimeout : option Z;
  opt_retryAttempts : option Z;
  opt_retryDelay : option Z
}.

Definition configure (options : Options) (w : World) : World :=
  set_settings (default 10 (opt_maxConnections options))
               (default 30000 (opt_connectionTimeout options))
               (default 10000 (opt_queryTimeout options))
               (default 3 (opt_retryAttempts options))
               (default 1000 (opt_retryDelay options)) w.

(** ** Private helpers of the pool *)

(** [#simulateConnection] *)
Definition simulateConnection : Async unit :=
  sleep 1000 ;;
  fun w =>
    let w' := set_draws (S (connectDraws w)) (queryDraws w) (suffixDraws w) w in
    if connectDraw w (connectDraws w) then Resolved tt w'
    else Rejected (Error "Connection timeout") w'.

(** The timer callback of [#createConnection]: a new object, free, stamped
    with the current time; its reference is returned. *)
Definition newConnection (w : World) : nat * World :=
  let c := {| conn_id := {| stamp := now w; suffix := suffixDraw w (suffixDraws w) |};
              createdAt := now w; lastUsed := now w; inUse := false;
              transactionActive := None |} in
  (length (store w),
   set_draws (connectDraws w) (queryDraws w) (S (suffixDraws w))
     (set_store (store w ++ [c]) w)).

(** [#createConnection] *)
Definition createConnection : Async nat :=
  sleep 100 ;; fun w => let (r, w') := newConnection w in Resolved r w'.

(** [this.#connectionPool.set(connection.id, connection)] *)
Definition poolSet (connection : nat) (w : World) : World :=
  match store w !! connection with
  | Some c => set_connectionPool (pool_set (conn_id c) connection (connectionPool w)) w
  | None => w
  end.

(** [this.#stats.activeConnections = this.#connectionPool.size] *)
Definition recordPoolSize (w : World) : World :=
  set_stats (set_activeConnections (Z.of_nat (length (connectionPool w))) (stats w)) w.

Fixpoint initializeLoop (iterations : nat) : Async unit :=
  match iterations with
  | O => ret tt
  | S iterations' =>
      connection <- createConnection ;;
      effect (poolSet connection) ;;
      initializeLoop iterations'
  end.

(** [#initializeConnectionPool]: the loop
    [for (let i = 0; i < Math.min(3, maxConnections); i++)] makes
    [Math.min(3, maxConnections)] rounds for a whole number
    [maxConnections], and none when that is not positive. *)
Definition initializeConnectionPool : Async unit :=
  (fun w => initializeLoop (Z.to_nat (Z.min 3 (maxConnections w))) w) ;;
  effect recordPoolSize.

(** The scan [for (const [id, connection] of this.#connectionPool)
    if (!connection.inUse) ...]: the first free connection in Map order. *)
Fixpoint findAvailable (s : list Connection) (p : Pool) : option nat :=
  match p with
  | [] => None
  | (_, r) :: p' =>
      match s !! r with
      | Some c => if inUse c then findAvailable s p' else Some r
      | None => findAvailable s p'
      end
  end.

(** [connection.inUse = true; connection.lastUsed = new Date()] *)
Definition take (connection : nat) (w : World) : World :=
  set_store (alter (fun c => set_lastUsed (now w) (set_inUse true c)) connection (store w)) w.

(** One scan of the pool, as in the first loop of [#getConnection] and in
    each run of its [checkConnection]: the first free connection is taken,
    or nothing happens. *)
Definition checkConnection (w : World) : option (nat * World) :=
  match findAvailable (store w) (connectionPool w) with
  | Some r => Some (r, take r w)
  | None => None
  end.

(** After [#createConnection] in [#getConnection]: [connection.inUse = true],
    the connection is added to the pool, the gauge is refreshed. *)
Definition addConnection (connection : nat) (w : World) : World :=
  recordPoolSize
    (poolSet connection
       (set_store (alter (set_inUse true) connection (store w)) w)).

(** [this.#connectionPool.size < this.#maxConnections] *)
Definition poolNotFull (w : World) : bool :=
  (Z.of_nat (length (connectionPool w)) <? maxConnections w)%Z.

(** [#getConnection]. In the last case the promise is settled only by a
    later [checkConnection]; with no other caller running, every scan sees
    the same pool and the promise never settles. *)
Definition getConnection : Async nat :=
  fun w =>
    match checkConnection w with
    | Some (r, w') => Resolved r w'
    | None =>
        if poolNotFull w then
          (connection <- createConnection ;;
           effect (addConnection connection) ;;
           ret connection) w
        else
          match checkConnection w with
          | Some (r, w') => Resolved r w'
          | None => Pending
          end
    end.

(** [#releaseConnection]; [None] is a [null] or [undefined] argument. *)
Definition releaseConnection (connection : option nat) (w : World) : World :=
  match connection with
  | None => w
  | Some r =>
      match store w !! r with
      | Some c =>
          if pool_has (conn_id c) (connectionPool w) then
            set_store (alter (fun c => set_lastUsed (now w) (set_inUse false c)) r (store w)) w
          else w
      | None => w
      end
  end.

(** [#closeConnection] *)
Definition closeConnection (connection : nat) : Async unit := sleep 50.

(** The object a successful [#executeQuery] resolves with. *)
Record QueryResult := {
  rows : list (Z * string);
  rowCount : Z;
  queryText : JSValue;
  queryParams : list JSValue
}.

(** [#executeQuery]: the simulated unit of work. *)
Definition executeQuery (connection : nat) (q : JSValue) (params : list JSValue)
  : Async QueryResult :=
  sleep 200 ;;
  fun w =>
    let ok := queryDraw w (queryDraws w) in
    let w' := log (EvExecuteQuery connection ok)
                (set_draws (connectDraws w) (S (queryDraws w)) (suffixDraws w) w) in
    if ok then
      Resolved {| rows := [(1, "Example Row 1"); (2, "Example Row 2")];
                  rowCount := 2; queryText := q; queryParams := params |} w'
    else Rejected (Error "Query execution failed") w'.

(** The loop of [#executeQueryWithRetry], entered with [attempt] and with
    [remaining] rounds to go. *)
Fixpoint retryLoop (remaining : nat) (attempt : Z) (lastError : Thrown)
    (connection : nat) (q : JSValue) (params : list JSValue) : Async QueryResult :=
  match remaining with
  | O => throw lastError
  | S remaining' =>
      fun w =>
        match executeQuery connection q params w with
        | Resolved result w' => Resolved result w'
        | Rejected error w' =>
            ((if (attempt <? retryAttempts w')%Z
              then delay (retryDelay w' * attempt)
              else ret tt) ;;
             retryLoop remaining' (attempt + 1) error connection q params) w'
        | Pending => Pending
        end
  end.

(** [#executeQueryWithRetry]: [attempt] runs from 1 to [retryAttempts];
    [lastError] starts out [undefined]. *)
Definition executeQueryWithRetry (connection : nat) (q : JSValue)
    (params : list JSValue) : Async QueryResult :=
  fun w =>
    retryLoop (Z.to_nat (retryAttempts w)) 1 (ThrownValue JSUndefined)
      connection q params w.

Definition markTransaction (b : bool) (connection : nat) (w : World) : World :=
  set_store (alter (set_transactionActive b) connection (store w)) w.

(** [#beginTransaction] *)
Definition beginTransaction (connection : nat) : Async unit :=
  sleep 50 ;; effect (markTransaction true connection).

(** [#commitTransaction] *)
Definition commitTransaction (connection : nat) : Async unit :=
  sleep 50 ;; effect (markTransaction false connection).

(** [#rollbackTransaction] *)
Definition rollbackTransaction (connection : nat) : Async unit :=
  sleep 50 ;; effect (markTransaction false connection).

(** ** Public methods *)

(** [connect] *)
Definition connect : Async unit :=
  fun w =>
    match connectionState w with
    | CONNECTED => Resolved tt w
    | CONNECTING => Resolved tt w
    | _ =>
        (effect (set_connectionState CONNECTING) ;;
         emit "connecting" ;;
         try_catch
           (simulateConnection ;;
            initializeConnectionPool ;;
            effect (set_connectionState CONNECTED) ;;
            emit "connected")
           (fun error =>
              effect (set_connectionState ERROR) ;;
              effect (fun w => set_stats (incr_connectionErrors (stats w)) w) ;;
              emit "error" ;;
              throw error)) w
    end.

(** The loop of [disconnect] over the entries of the pool. *)
Fixpoint closeAll (entries : Pool) : Async unit :=
  match entries with
  | [] => ret tt
  | (id, connection) :: entries' =>
      closeConnection connection ;;
      effect (fun w => set_connectionPool (pool_delete id (connectionPool w)) w) ;;
      closeAll entries'
  end.

(** [disconnect] *)
Definition disconnect : Async unit :=
  fun w =>
    match connectionState w with
    | DISCONNECTED => Resolved tt w
    | _ =>
        (effect (set_connectionState DISCONNECTED) ;;
         emit "disconnected" ;;
         (fun w => closeAll (connectionPool w) w) ;;
         effect (fun w => set_stats (set_activeConnections 0 (stats w)) w)) w
    end.

(** [this.#stats.totalQueries++] and the two counters of the outcome. *)
Definition countQuery (w : World) : World :=
  set_stats (incr_totalQueries (stats w)) w.

Definition countSuccess (w : World) : World :=
  set_stats (incr_successfulQueries (stats w)) w.

Definition countFailure (w : World) : World :=
  set_stats (incr_failedQueries (stats w)) w.

(** [if (state !== CONNECTED) await this.connect()] *)
Definition ensureConnected : Async unit :=
  fun w =>
    if bool_decide (connectionState w ≠ CONNECTED) then connect w
    else Resolved tt w.

(** [console.error('Query failed:', error.message)]: reading [message]
    off [undefined] throws. *)
Definition reportFailure (error : Thrown) : Async unit :=
  if message_unreadable error
  then throw (TypeError "Cannot read properties of undefined (reading 'message')")
  else ret tt.

(** [query] *)
Definition query (q : JSValue) (params : list JSValue) : Async QueryResult :=
  if negb (truthy q) || negb (String.eqb (typeof q) "string") then
    throw (Error "Query must be a non-empty string")
  else
    effect countQuery ;;
    ensureConnected ;;
    connection <- getConnection ;;
    try_finally
      (try_catch
         (result <- executeQueryWithRetry connection q params ;;
          effect countSuccess ;;
          ret result)
         (fun error =>
            effect countFailure ;;
            reportFailure error ;;
            throw error))
      (releaseConnection (Some connection)).

(** The argument of [transaction]: some value that is not a function, or
    an [async] function of the connection, free to call the manager. *)
Inductive Callback (A : Type) :=
  | NotAFunction (v : JSValue)
  | AsyncFunction (f : nat -> Async A).
Arguments NotAFunction {A} v.
Arguments AsyncFunction {A} f.

(** [transaction] *)
Definition transaction {A} (callback : Callback A) : Async A :=
  match callback with
  | NotAFunction _ => throw (Error "Transaction callback must be a function")
  | AsyncFunction f =>
      connection <- getConnection ;;
      try_finally
        (try_catch
           (beginTransaction connection ;;
            result <- (effect (log (EvCallback connection)) ;; f connection) ;;
            commitTransaction connection ;;
            ret result)
           (fun error =>
              rollbackTransaction connection ;;
              throw error))
        (releaseConnection (Some connection))
  end.

(** [getStats]: a fresh object copied from the counters. *)
Record StatsSnapshot := {
  snapshot : Stats;
  snapshot_connectionState : ConnectionState;
  poolSize : Z;
  snapshot_maxConnections : Z
}.

Definition getStats (w : World) : StatsSnapshot :=
  {| snapshot := stats w;
     snapshot_connectionState := connectionState w;
     poolSize := Z.of_nat (length (connectionPool w));
     snapshot_maxConnections := maxConnections w |}.

(** ** Observations on a world *)

(** The [inUse] flag of a connection object. *)
Definition inUseOf (connection : nat) (w : World) : option bool :=
  inUse <$> store w !! connection.

Definition transactionActiveOf (connection : nat) (w : World) : option (option bool) :=
  transactionActive <$> store w !! connection.

(** Whether the pool still tracks the connection: [pool.has(connection.id)]. *)
Definition tracked (connection : nat) (w : World) : bool :=
  match store w !! connection with
  | Some c => pool_has (conn_id c) (connectionPool w)
  | None => false
  end.

Definition isInUse (s : list Connection) (e : ConnId * nat) : bool :=
  match s !! e.2 with Some c => inUse c | None => false end.

Definition isIdle (s : list Connection) (e : ConnId * nat) : bool :=
  match s !! e.2 with Some c => negb (inUse c) | None => false end.

(** The number of resources of the pool that are in use, and that are idle. *)
Definition inUseCount (w : World) : nat :=
  length (List.filter (isInUse (store w)) (connectionPool w)).

Definition idleCount (w : World) : nat :=
  length (List.filter (isIdle (store w)) (connectionPool w)).

(** ** Callers that overlap

    Between two [await]s a caller runs alone; at an [await] others may run.
    A scoped caller ([query], [transaction]) is followed through
    [#getConnection], one step per resumption, and through its [finally]. *)
Inductive Caller :=
  | Calling                      (* about to enter [#getConnection] *)
  | Creating (wake : Z)          (* awaiting the timer of [#createConnection] *)
  | Waiting (wake : Z)           (* [checkConnection] rescheduled for [wake] *)
  | Holding (connection : nat)   (* [#getConnection] resolved *)
  | Done.                        (* [#releaseConnection] has run *)

(** One resumption of a caller. A timer that is not due yet leaves
    everything as it is. *)
Definition resume (c : Caller) (w : World) : Caller * World :=
  match c with
  | Calling =>
      match checkConnection w with
      | Some (r, w') => (Holding r, w')
      | None =>
          if poolNotFull w then (Creating (now w + 100), w)
          else
            match checkConnection w with
            | Some (r, w') => (Holding r, w')
            | None => (Waiting (now w + 100), w)
            end
      end
  | Creating wake =>
      if (now w <? wake)%Z then (c, w)
      else let (r, w') := newConnection w in (Holding r, addConnection r w')
  | Waiting wake =>
      if (now w <? wake)%Z then (c, w)
      else
        match checkConnection w with
        | Some (r, w') => (Holding r, w')
        | None => (Waiting (now w + 100), w)
        end
  | Holding r => (Done, releaseConnection (Some r) w)
  | Done => (Done, w)
  end.

(** A schedule: time passes (as long as a timer of [ms] takes), or one
    of the callers is resumed. *)
Inductive Move :=
  | Elapse (ms : Z)
  | Resume (caller : nat).

Definition move (st : list Caller * World) (m : Move) : list Caller * World :=
  match m with
  | Elapse ms => (st.1, advance ms st.2)
  | Resume i =>
      match st.1 !! i with
      | Some c => let (c', w') := resume c st.2 in (<[i := c']> st.1, w')
      | None => st
      end
  end.

Definition run (schedule : list Move) (st : list Caller * World) : list Caller * World :=
  fold_left move schedule st.

(** ** Well-formed worlds

    What the code maintains about the pool: every entry is filed under
    the id of the object it holds, and no object is filed twice. *)
Definition filed (s : list Connection) (e : ConnId * nat) : Prop :=
  conn_id <$> s !! e.2 = Some e.1.

Definition wf (w : World) : Prop :=
  Forall (filed (store w)) (connectionPool w) ∧ NoDup (connectionPool w).*2.

#[global] Instance wf_dec w : Decision (wf w).
Proof. unfold wf, filed. apply _. Defined.

(** Sample worlds: a fresh manager where nothing ever fails and the n-th
    id drawn is n letters long; the same manager once connected. *)
Fixpoint letters (n : nat) : string :=
  match n with
  | O => "a"
  | S n' => String.append "a" (letters n')
  end.

Definition calm (t : Z) : World :=
  constructor t (fun _ => true) (fun _ => true) letters.

Definition after {A} (m : Async A) (w : World) : World :=
  match m w with
  | Resolved _ w' => w'
  | Rejected _ w' => w'
  | Pending => w
  end.

Definition connected : World := after connect (calm 0).

(** A callback that throws at once. *)
Definition failingBody : nat → Async unit := fun _ => throw (Error "boom").

(** What an [async] method leaves behind when it settles. *)
Definition final {A} (o : Outcome A) : option World :=
  match o with
  | Resolved _ w => Some w
  | Rejected _ w => Some w
  | Pending => None
  end.

(** The value it resolves with, or what it throws. *)
Definition verdict {A} (o : Outcome A) : option (A + Thrown) :=
  match o with
  | Resolved a _ => Some (inl a)
  | Rejected e _ => Some (inr e)
  | Pending => None
  end.

(** [keeps P m]: whenever [m] settles from a world with [P], it leaves a
    world with [P]. *)
Definition keeps {A} (P : World -> Prop) (m : Async A) : Prop :=
  ∀ w w', P w → final (m w) = Some w' → P w'.

(** ** Definitions used in the statements *)

(** The connected sample manager with its first connection taken. *)
Definition busy : World := after getConnection connected.

(** What an operation leaves alone: the manager with its pool and the
    connection objects, and the sources of randomness. *)
Definition manager (w : World) :=
  (connectionState w, connectionPool w, stats w, store w).

Definition settings (w : World) :=
  (maxConnections w, connectionTimeout w, queryTimeout w, retryAttempts w, retryDelay w).

Definition sources (w : World) := (connectDraw w, queryDraw w, suffixDraw w).

(** The value [#executeQuery] resolves with. *)
Definition exampleRows (q : JSValue) (params : list JSValue) : QueryResult :=
  {| rows := [(1, "Example Row 1"); (2, "Example Row 2")];
     rowCount := 2; queryText := q; queryParams := params |}.

(** A failed attempt followed by its delay. *)
Definition failedRound (connection : nat) (base : Z) (k : nat) : list Event :=
  [EvExecuteQuery connection false; EvDelay (base * Z.of_nat k)].

(** The outcome of a run that ends with an attempt of outcome [ok]. *)
Definition settle (ok : bool) (q : JSValue) (params : list JSValue) (w : World)
  : Outcome QueryResult :=
  if ok then Resolved (exampleRows q params) w
  else Rejected (Error "Query execution failed") w.

(** The draws of a run of [j] failed attempts and a last attempt of
    outcome [ok], when attempts are numbered from [a]: the failures are
    followed by retries, and a failed last attempt is the last allowed. *)
Definition drawsRun (w : World) (a j : nat) (ok : bool) : Prop :=
  (∀ i, (i < j)%nat → queryDraw w (queryDraws w + i)%nat = false) ∧
  queryDraw w (queryDraws w + j)%nat = ok ∧
  Z.of_nat (a + j) ≤ retryAttempts w ∧
  (ok = false → Z.of_nat (a + j) = retryAttempts w).

(** The world after one run of [#executeQuery] on a connection. *)
Definition attempted (c : nat) (w : World) : World :=
  log (EvExecuteQuery c (queryDraw w (queryDraws w)))
    (set_draws (connectDraws w) (S (queryDraws w)) (suffixDraws w) (advance 200 w)).

(** The world after [#delay(ms)]. *)
Definition delayed (ms : Z) (w : World) : World := advance ms (log (EvDelay ms) w).

Definition counters (w : World) :=
  (totalQueries (stats w), successfulQueries (stats w), failedQueries (stats w),
   connectionErrors (stats w)).

Definition validQuery (q : JSValue) : Prop := ∃ s, q = JSString s ∧ s ≠ "".

(** The tail of [query] once a connection is acquired: the [try],
    [catch] and [finally] around the retried unit of work. *)
Definition guarded (c : nat) (q : JSValue) (params : list JSValue) : Async QueryResult :=
  try_finally
    (try_catch
       (result <- executeQueryWithRetry c q params ;;
        effect countSuccess ;;
        ret result)
       (fun error =>
          effect countFailure ;;
          reportFailure error ;;
          throw error))
    (releaseConnection (Some c)).

(** The number of runs of the unit of work recorded in a log. *)
Definition isAttempt (e : Event) : bool :=
  match e with EvExecuteQuery _ _ => true | _ => false end.

Definition attempts (t : list Event) : nat := length (List.filter isAttempt t).

(** A connected manager whose unit of work always fails. *)
Definition stormy : World :=
  after connect (constructor 0 (fun _ => true) (fun _ => false) letters).

(** A connected manager whose unit of work fails twice, then succeeds. *)
Definition flaky : World :=
  after connect (constructor 0 (fun _ => true) (fun n => 2 <=? n)%nat letters).

(** A resource of the pool that is free. *)
Definition freeIn (w : World) (r : nat) : Prop :=
  (∃ k, (k, r) ∈ connectionPool w) ∧ inUseOf r w = Some false.

(** A manager limited to three connections, connected, all three taken;
    and the default manager with its three first connections taken. *)
Definition small : World :=
  configure {| opt_maxConnections := Some 3; opt_connectionTimeout := None;
               opt_queryTimeout := None; opt_retryAttempts := None;
               opt_retryDelay := None |} (calm 0).

Definition exhausted : World :=
  after getConnection (after getConnection (after getConnection (after connect small))).

Definition allTaken : World :=
  after getConnection (after getConnection (after getConnection connected)).

(** The world in which the callback starts, and the world the
    transaction leaves once the callback has settled. *)
Definition begun (c : nat) (w : World) : World :=
  log (EvCallback c) (markTransaction true c (advance 50 w)).

Definition ended (c : nat) (w : World) : World :=
  releaseConnection (Some c) (markTransaction false c (advance 50 w)).

(** The connected sample manager inside a transaction on connection 0. *)
Definition midTransaction : World := after (beginTransaction 0) busy.

(** The number of callback invocations recorded in a log. *)
Definition isCallback (e : Event) : bool :=
  match e with EvCallback _ => true | _ => false end.

Definition invocations (t : list Event) : nat := length (List.filter isCallback t).

(** What [connect] and [disconnect] leave alone. *)
Definition sameRun (w w' : World) : Prop :=
  settings w' = settings w ∧ sources w' = sources w ∧
  connectDraws w' = connectDraws w ∧ queryDraws w' = queryDraws w ∧
  counters w' = counters w.



(** A manager limited to one connection, and one limited to two. *)
Definition single : World :=
  configure {| opt_maxConnections := Some 1; opt_connectionTimeout := None;
               opt_queryTimeout := None; opt_retryAttempts := None;
               opt_retryDelay := None |} (calm 0).

Definition pair : World :=
  after connect
    (configure {| opt_maxConnections := Some 2; opt_connectionTimeout := None;
                  opt_queryTimeout := None; opt_retryAttempts := None;
                  opt_retryDelay := None |} (calm 0)).

(** ** The event listeners: [on], [off] and [#emit]

    [#eventListeners] maps an event name to the array of the functions
    registered for it. A function is known by its identity, here a
    number; what a listener does when called is given by [behave], which
    returns the state it leaves and whether it threw. *)
Module Listeners.

Definition Registry := list (string * list nat).

(** [this.#eventListeners.get(event)], or no listeners. *)
Fixpoint get (event : string) (m : Registry) : option (list nat) :=
  match m with
  | [] => None
  | (e, ls) :: m' => if String.eqb e event then Some ls else get event m'
  end.

(** [this.#eventListeners.set(event, ls)] *)
Fixpoint set (event : string) (ls : list nat) (m : Registry) : Registry :=
  match m with
  | [] => [(event, ls)]
  | (e, ls') :: m' =>
      if String.eqb e event then (e, ls) :: m' else (e, ls') :: set event ls m'
  end.

(** [on]: the array is created when missing, the listener is pushed. *)
Definition on (event : string) (listener : nat) (m : Registry) : Registry :=
  match get event m with
  | Some ls => set event (ls ++ [listener]) m
  | None => set event ([] ++ [listener]) m
  end.

(** [listeners.indexOf(listener)] followed by [splice(index, 1)] when the
    index is not -1: the first occurrence goes. *)
Fixpoint spliceFirst (listener : nat) (ls : list nat) : list nat :=
  match ls with
  | [] => []
  | l :: ls' => if Nat.eqb l listener then ls' else l :: spliceFirst listener ls'
  end.

(** [off] *)
Definition off (event : string) (listener : nat) (m : Registry) : Registry :=
  match get event m with
  | Some ls => set event (spliceFirst listener ls) m
  | None => m
  end.

(** The listeners [#emit(event)] calls, in order. *)
Definition listenersOf (event : string) (m : Registry) : list nat :=
  match get event m with Some ls => ls | None => [] end.

(** [#emit]: every listener of the event is called in turn; what one
    throws is caught and logged, and the next one is called. The state
    threaded through is whatever the listeners act on; the result also
    lists the listeners that threw. *)
Definition emit {S : Type} (behave : nat → S → S * bool) (event : string)
    (m : Registry) (s : S) : S * list nat :=
  fold_left
    (fun acc l =>
       let '(s', threw) := behave l acc.1 in
       (s', if threw then acc.2 ++ [l] else acc.2))
    (listenersOf event m) (s, []).

End Listeners.

(** ** Invariants of the manager *)

(** The gauge [activeConnections] holds the size of the pool. *)
Definition gauge (w : World) : Prop :=
  activeConnections (stats w) = Z.of_nat (length (connectionPool w)).


(** No connection is held by two callers, and a held connection is marked
    in use. *)
Definition exclusive (st : list Caller * World) : Prop :=
  (∀ i r, st.1 !! i = Some (Holding r) → inUseOf r st.2 = Some true) ∧
  (∀ i j r, st.1 !! i = Some (Holding r) → st.1 !! j = Some (Holding r) → i = j).

(** Twice the sum of the attempt numbers [a], [a+1], ... ([j] of them). *)
Definition twiceAttemptSum (a j : nat) : Z := Z.of_nat j * (2 * Z.of_nat a + Z.of_nat j - 1).

(** The time the timers of [#delay(retryDelay * attempt)] take after the
    failed attempts [attempt], [attempt + 1], ... ([j] of them). *)
Fixpoint waits (retryDelay : Z) (attempt j : nat) : Z :=
  match j with
  | O => 0
  | S j' => timerDuration (retryDelay * Z.of_nat attempt) + waits retryDelay (S attempt) j'
  end.

(** An entry of the pool whose connection is in use (or gone). *)
Definition taken (s : list Connection) (e : ConnId * nat) : Prop :=
  inUse <$> s !! e.2 ≠ Some false.


(** A callback in the manner of the order service: two queries, one
    after the other. *)
Definition twoQueries : nat → Async QueryResult :=
  fun _ => _ <- query (JSString "INSERT") [] ;; query (JSString "UPDATE") [].

(** * Properties *)

(** The manager's own timers (50, 100, 200 and 1000 ms) take what they
    say. *)
Ltac fixed_timers :=
  change (timerDuration 50) with 50 in *;
  change (timerDuration 100) with 100 in *;
  change (timerDuration 200) with 200 in *;
  change (timerDuration 1000) with 1000 in *.

(** ** The pool as a [Map] *)

Lemma pool_set_length_le k r p :
  (length p ≤ length (pool_set k r p) ≤ S (length p))%nat.
Proof.
  induction p as [|[k' r'] p IH]; simpl; [lia|].
  case_bool_decide; simpl; lia.
Qed.


Lemma pool_has_set k r p : pool_has k (pool_set k r p) = true.
Proof.
  induction p as [|[k' r'] p IH]; simpl.
  - by rewrite bool_decide_eq_true_2.
  - case_bool_decide as Hk; simpl.
    + by rewrite bool_decide_eq_true_2.
    + rewrite bool_decide_eq_false_2; [exact IH | exact Hk].
Qed.


Lemma pool_set_elem k r p e :
  e ∈ pool_set k r p → e = (k, r) ∨ e ∈ p.
Proof.
  induction p as [|[k' r'] p IH]; simpl.
  - intros ->%list_elem_of_singleton. by left.
  - case_bool_decide.
    + intros [->|Hin]%elem_of_cons; [by left | right; by apply elem_of_cons; right].
    + intros [->|Hin]%elem_of_cons; [right; apply elem_of_cons; by left|].
      destruct (IH Hin) as [->|Hp]; [by left | right; apply elem_of_cons; by right].
Qed.

(** ** Releasing *)

Lemma lookup_alter_inUse (f : Connection → Connection) (s : list Connection) r r' :
  (∀ c, inUse (f c) = false) →
  inUse <$> alter f r s !! r' =
  if decide (r = r') then (λ _, false) <$> s !! r' else inUse <$> s !! r'.
Proof.
  intros Hf. destruct (decide (r = r')) as [->|Hne].
  - rewrite list_lookup_alter_eq. destruct (s !! r'); simpl; [by rewrite Hf | done].
  - by rewrite list_lookup_alter_ne.
Qed.

(** A tracked handle is marked free and stamped with the current time. *)
Lemma release_tracked r w :
  tracked r w = true →
  inUseOf r (releaseConnection (Some r) w) = Some false ∧
  lastUsed <$> store (releaseConnection (Some r) w) !! r = Some (now w) ∧
  connectionPool (releaseConnection (Some r) w) = connectionPool w.
Proof.
  unfold tracked, releaseConnection, inUseOf. intros H.
  destruct (store w !! r) as [c|] eqn:Hc; [|done].
  rewrite H. simpl. rewrite list_lookup_alter_eq, Hc. done.
Qed.

(** An untracked handle, or no handle at all, changes nothing. *)
Lemma release_untracked r w :
  tracked r w = false → releaseConnection (Some r) w = w.
Proof.
  unfold tracked, releaseConnection. intros H.
  destruct (store w !! r) as [c|]; [by rewrite H | done].
Qed.

Lemma release_tracked_same r w :
  tracked r (releaseConnection (Some r) w) = tracked r w.
Proof.
  unfold tracked, releaseConnection.
  destruct (store w !! r) as [c|] eqn:Hc; [|by rewrite Hc].
  destruct (pool_has _ _) eqn:Hp; [|by rewrite Hc, Hp].
  simpl. rewrite list_lookup_alter_eq, Hc. simpl. done.
Qed.

Lemma isIdle_alter_free (f : Connection → Connection) s r e :
  (∀ c, inUse (f c) = false) →
  isIdle (alter f r s) e = if decide (r = e.2) then bool_decide (is_Some (s !! r)) else isIdle s e.
Proof.
  intros Hf. unfold isIdle. destruct (decide (r = e.2)) as [->|Hne].
  - rewrite list_lookup_alter_eq. destruct (s !! e.2); simpl; [by rewrite Hf | done].
  - by rewrite list_lookup_alter_ne.
Qed.

Lemma idle_filter_alter_absent (f : Connection → Connection) s r (p : Pool) :
  (∀ c, inUse (f c) = false) → r ∉ p.*2 →
  List.filter (isIdle (alter f r s)) p = List.filter (isIdle s) p.
Proof.
  intros Hf. induction p as [|e p IH]; simpl; [done|].
  intros Hnotin. apply not_elem_of_cons in Hnotin as [Hne Hp].
  rewrite (isIdle_alter_free f s r e Hf). rewrite decide_False by done.
  rewrite IH by done. done.
Qed.

Lemma idle_filter_alter_le (f : Connection → Connection) s r (p : Pool) :
  (∀ c, inUse (f c) = false) → NoDup p.*2 →
  (length (List.filter (isIdle (alter f r s)) p) ≤ S (length (List.filter (isIdle s) p)))%nat.
Proof.
  intros Hf. induction p as [|e p IH]; simpl; [lia|].
  intros Hnd. apply NoDup_cons in Hnd as [Hnotin Hnd].
  rewrite (isIdle_alter_free f s r e Hf).
  destruct (decide (r = e.2)) as [->|Hne].
  - rewrite idle_filter_alter_absent by done.
    destruct (bool_decide _), (isIdle s e); simpl; lia.
  - specialize (IH Hnd). destruct (isIdle s e); simpl; lia.
Qed.

Lemma idle_filter_alter_twice (f g : Connection → Connection) s r (p : Pool) :
  (∀ c, inUse (f c) = false) → (∀ c, inUse (g c) = false) →
  List.filter (isIdle (alter g r (alter f r s))) p = List.filter (isIdle (alter f r s)) p.
Proof.
  intros Hf Hg. induction p as [|e p IH]; simpl; [done|].
  rewrite IH. rewrite (isIdle_alter_free g _ r e Hg).
  destruct (decide (r = e.2)) as [->|Hne]; [|done].
  unfold isIdle. rewrite list_lookup_alter_eq.
  destruct (s !! e.2) eqn:E; simpl; [by rewrite Hf | done].
Qed.

Lemma release_idle_once r w :
  wf w → (idleCount (releaseConnection (Some r) w) ≤ S (idleCount w))%nat.
Proof.
  intros [_ Hnd]. unfold idleCount, releaseConnection.
  destruct (store w !! r) as [c|]; [|lia].
  destruct (pool_has _ _); [|lia]. simpl.
  by apply idle_filter_alter_le.
Qed.

Lemma release_idle_again r w :
  idleCount (releaseConnection (Some r) (releaseConnection (Some r) w)) =
  idleCount (releaseConnection (Some r) w).
Proof.
  unfold idleCount.
  destruct (tracked r w) eqn:Ht.
  - pose proof (release_tracked_same r w) as Hs. rewrite Ht in Hs.
    unfold tracked in Ht, Hs. unfold releaseConnection at 1 3.
    destruct (store (releaseConnection (Some r) w) !! r) as [c'|] eqn:Hc'; [|done].
    rewrite Hs. simpl.
    unfold releaseConnection. destruct (store w !! r) as [c|]; [|done].
    rewrite Ht. simpl. f_equal. by apply idle_filter_alter_twice.
  - rewrite (release_untracked r w Ht). by rewrite (release_untracked r w Ht).
Qed.

(** ** Claims about [query]'s validation and about release *)

(** C10. A query argument that is missing, empty, or not a string makes
    [query] throw its [Error] before anything else happens: the world is
    left exactly as it was (no counter, no connection, no timer, no log
    entry). *)
Theorem query_rejects_invalid_argument (v : JSValue) (params : list JSValue) (w : World) :
  v = JSUndefined ∨ v = JSString "" ∨ typeof v ≠ "string" →
  query v params w = Rejected (Error "Query must be a non-empty string") w.
Proof.
  intros [-> | [-> | Hty]]; [done | done |].
  destruct v as [| |b|n|s| | |]; try done;
    unfold query; simpl; by rewrite orb_true_r.
Qed.

Lemma query_rejects_invalid_argument_witness :
  (JSNumber 42 = JSUndefined ∨ JSNumber 42 = JSString "" ∨ typeof (JSNumber 42) ≠ "string") ∧
  query (JSNumber 42) [] connected =
    Rejected (Error "Query must be a non-empty string") connected.
Proof.
  assert (H : JSNumber 42 = JSUndefined ∨ JSNumber 42 = JSString "" ∨
              typeof (JSNumber 42) ≠ "string") by (right; right; discriminate).
  split; [exact H | exact (query_rejects_invalid_argument (JSNumber 42) [] connected H)].
Defined.

(** C9. Releasing a handle the pool tracks marks it free and stamps
    [lastUsed] with the current time; releasing a handle the pool does not
    track, or no handle, changes nothing and raises nothing; and releasing
    the same handle twice raises the idle count by at most one. *)
Theorem release_contract (r : nat) (w : World) :
  wf w →
  (tracked r w = true →
     inUseOf r (releaseConnection (Some r) w) = Some false ∧
     lastUsed <$> store (releaseConnection (Some r) w) !! r = Some (now w)) ∧
  (tracked r w = false → releaseConnection (Some r) w = w) ∧
  releaseConnection None w = w ∧
  (idleCount (releaseConnection (Some r) (releaseConnection (Some r) w))
     ≤ S (idleCount w))%nat.
Proof.
  intros Hwf. repeat split.
  - by apply release_tracked.
  - by apply release_tracked.
  - apply release_untracked.
  - rewrite release_idle_again. by apply release_idle_once.
Qed.

Lemma release_contract_witness :
  wf busy ∧
  tracked 0 busy = true ∧
  inUseOf 0 busy = Some true ∧
  inUseOf 0 (releaseConnection (Some 0%nat) busy) = Some false ∧
  idleCount busy = 2%nat ∧
  idleCount (releaseConnection (Some 0%nat) (releaseConnection (Some 0%nat) busy)) = 3%nat.
Proof.
  assert (Hwf : wf busy) by (apply (bool_decide_unpack (wf busy)); vm_compute; exact I).
  pose proof (release_contract 0 busy Hwf) as (Ht & _ & _ & _).
  split; [exact Hwf|].
  split; [vm_compute; reflexivity|].
  split; [vm_compute; reflexivity|].
  split; [apply Ht; vm_compute; reflexivity|].
  split; vm_compute; reflexivity.
Defined.

(** ** Retrying *)

Lemma executeQuery_settles c q params w :
  executeQuery c q params w = settle (queryDraw w (queryDraws w)) q params (attempted c w).
Proof.
  unfold executeQuery, bind, sleep, effect, settle, attempted, exampleRows. simpl.
  by destruct (queryDraw w (queryDraws w)).
Qed.

Lemma retryLoop_succeeds n a lastError c q params w :
  queryDraw w (queryDraws w) = true →
  retryLoop (S n) a lastError c q params w = Resolved (exampleRows q params) (attempted c w).
Proof.
  intros Hd. cbn [retryLoop]. rewrite executeQuery_settles, Hd. done.
Qed.

Lemma retryLoop_retries n a lastError c q params w :
  queryDraw w (queryDraws w) = false →
  retryLoop (S n) a lastError c q params w =
  retryLoop n (a + 1) (Error "Query execution failed") c q params
    (if a <? retryAttempts w then delayed (retryDelay w * a) (attempted c w)
     else attempted c w).
Proof.
  intros Hd. cbn [retryLoop]. rewrite executeQuery_settles, Hd. cbn [settle].
  replace (retryAttempts (attempted c w)) with (retryAttempts w) by done.
  replace (retryDelay (attempted c w)) with (retryDelay w) by done.
  destruct (a <? retryAttempts w); done.
Qed.

Lemma retryLoop_run j : ∀ a n lastError c q params w ok,
  drawsRun w a j ok → Z.of_nat (a + n) = retryAttempts w + 1 →
  ∃ w', retryLoop n (Z.of_nat a) lastError c q params w = settle ok q params w' ∧
        manager w' = manager w ∧ settings w' = settings w ∧ sources w' = sources w ∧
        connectDraws w' = connectDraws w ∧ suffixDraws w' = suffixDraws w ∧
        queryDraws w' = (queryDraws w + S j)%nat ∧
        trace w' = trace w ++ flat_map (failedRound c (retryDelay w)) (seq a j)
                     ++ [EvExecuteQuery c ok].
Proof.
  induction j as [|j IH]; intros a n lastError c q params w ok (Hfail & Hlast & Hle & Hend) Hn.
  - destruct n as [|n]; [lia|]. rewrite Nat.add_0_r in *.
    destruct ok.
    + rewrite retryLoop_succeeds by done. eexists. split; [reflexivity|].
      unfold attempted. simpl. rewrite Hlast, Nat.add_1_r. done.
    + specialize (Hend eq_refl).
      rewrite retryLoop_retries by done.
      replace (Z.of_nat a <? retryAttempts w) with false by (symmetry; apply Z.ltb_ge; lia).
      destruct n; [|lia]. eexists. split; [reflexivity|].
      unfold attempted. simpl. rewrite Hlast, Nat.add_1_r. done.
  - destruct n as [|n]; [lia|].
    assert (Hd : queryDraw w (queryDraws w) = false).
    { rewrite <- (Hfail 0%nat) by lia. f_equal. lia. }
    rewrite retryLoop_retries by done.
    replace (Z.of_nat a <? retryAttempts w) with true by (symmetry; apply Z.ltb_lt; lia).
    set (w2 := delayed _ _).
    destruct (IH (S a) n (Error "Query execution failed") c q params w2 ok)
      as (w' & Hrun & Hm & Hs & Ho & Hcd & Hsd & Hqd & Htr).
    { subst w2. repeat split; simpl.
      - intros i Hi. rewrite <- (Hfail (S i)) by lia. f_equal. lia.
      - rewrite <- Hlast. f_equal. lia.
      - lia.
      - intros Hok. rewrite <- (Hend Hok). lia. }
    { subst w2. simpl. lia. }
    exists w'. replace (Z.of_nat a + 1) with (Z.of_nat (S a)) by lia.
    split; [exact Hrun|].
    rewrite Hm, Hs, Ho, Hcd, Hsd, Hqd, Htr. subst w2. simpl. rewrite Hd.
    repeat split; [lia|].
    rewrite <- !app_assoc. done.
Qed.

(** ** What [#getConnection] touches *)

Lemma poolSet_frame r w :
  store (poolSet r w) = store w ∧ stats (poolSet r w) = stats w ∧
  settings (poolSet r w) = settings w ∧ sources (poolSet r w) = sources w ∧
  connectionState (poolSet r w) = connectionState w ∧
  queryDraws (poolSet r w) = queryDraws w ∧ connectDraws (poolSet r w) = connectDraws w ∧
  suffixDraws (poolSet r w) = suffixDraws w ∧
  trace (poolSet r w) = trace w ∧ now (poolSet r w) = now w.
Proof. unfold poolSet. by destruct (store w !! r). Qed.

Lemma checkConnection_Some w r w' :
  checkConnection w = Some (r, w') →
  findAvailable (store w) (connectionPool w) = Some r ∧ w' = take r w.
Proof.
  unfold checkConnection. destruct (findAvailable _ _); [|done].
  by intros [= -> ->].
Qed.

Lemma getConnection_cases w :
  match findAvailable (store w) (connectionPool w) with
  | Some r => getConnection w = Resolved r (take r w)
  | None =>
      if poolNotFull w then
        getConnection w =
          Resolved (length (store w))
            (addConnection (length (store w)) (newConnection (advance 100 w)).2)
      else getConnection w = Pending
  end.
Proof.
  unfold getConnection, checkConnection.
  destruct (findAvailable _ _); [done|].
  destruct (poolNotFull w); done.
Qed.

Lemma getConnection_frame c w w1 :
  getConnection w = Resolved c w1 →
  settings w1 = settings w ∧ sources w1 = sources w ∧
  connectionState w1 = connectionState w ∧ counters w1 = counters w ∧
  queryDraws w1 = queryDraws w ∧ connectDraws w1 = connectDraws w ∧
  trace w1 = trace w.
Proof.
  pose proof (getConnection_cases w) as H.
  destruct (findAvailable _ _).
  - rewrite H. by intros [= <- <-].
  - destruct (poolNotFull w); rewrite H; [|done].
    intros [= <- <-]. unfold addConnection, recordPoolSize, counters, settings, sources.
    simpl. set (w0 := set_store _ _).
    destruct (poolSet_frame (length (store w)) w0) as (_ & -> & Hs & Ho & -> & -> & -> & _ & -> & _).
    unfold settings, sources in Hs, Ho. rewrite Hs, Ho. done.
Qed.

(** ** [query] on a connected manager *)

Lemma validQuery_passes q :
  validQuery q → negb (truthy q) || negb (String.eqb (typeof q) "string") = false.
Proof.
  intros (s & -> & Hs). simpl.
  apply String.eqb_neq in Hs. by rewrite Hs.
Qed.

Lemma query_connected q params w c w1 :
  validQuery q → connectionState w = CONNECTED →
  getConnection (countQuery w) = Resolved c w1 →
  query q params w = guarded c q params w1.
Proof.
  intros Hq Hc Hg. unfold query. rewrite (validQuery_passes q Hq).
  unfold bind at 1. unfold effect at 1. unfold bind at 1. unfold ensureConnected.
  replace (connectionState (countQuery w)) with (connectionState w) by done.
  rewrite Hc. rewrite bool_decide_eq_false_2 by naive_solver.
  unfold bind at 1. rewrite Hg. done.
Qed.

Lemma guarded_run c q params w j ok :
  drawsRun w 1 j ok → 0 ≤ retryAttempts w →
  ∃ w2, guarded c q params w =
          settle ok q params
            (releaseConnection (Some c) (if ok then countSuccess w2 else countFailure w2)) ∧
        executeQueryWithRetry c q params w = settle ok q params w2 ∧
        manager w2 = manager w ∧ settings w2 = settings w ∧
        trace w2 = trace w ++ flat_map (failedRound c (retryDelay w)) (seq 1 j)
                     ++ [EvExecuteQuery c ok].
Proof.
  intros Hrun Hpos.
  destruct (retryLoop_run j 1 (Z.to_nat (retryAttempts w)) (ThrownValue JSUndefined)
              c q params w ok Hrun) as (w2 & Hloop & Hm & Hs & _ & _ & _ & _ & Htr); [lia|].
  change (Z.of_nat 1) with 1 in Hloop.
  exists w2. split; [|done].
  unfold guarded, try_finally, try_catch, bind, executeQueryWithRetry.
  rewrite Hloop. destruct ok; done.
Qed.

Lemma attempts_app t1 t2 : attempts (t1 ++ t2) = (attempts t1 + attempts t2)%nat.
Proof. unfold attempts. by rewrite List.filter_app, length_app. Qed.

Lemma attempts_failedRounds c base a j :
  attempts (flat_map (failedRound c base) (seq a j)) = j.
Proof.
  revert a. induction j as [|j IH]; intros a; [done|].
  simpl. unfold attempts in *. simpl. by rewrite IH.
Qed.



Lemma release_keeps_log_and_stats h w :
  trace (releaseConnection h w) = trace w ∧ stats (releaseConnection h w) = stats w ∧
  connectionPool (releaseConnection h w) = connectionPool w ∧
  connectionState (releaseConnection h w) = connectionState w.
Proof.
  unfold releaseConnection. destruct h as [r|]; [|done].
  destruct (store w !! r) as [x|]; [|done]. by destruct (pool_has _ _).
Qed.

(** C4, as the code has it. The counters follow calls, not attempts: a
    query on a connected manager that makes [j + 1] attempts ([j] failures,
    then a success or the last allowed failure) adds one to [totalQueries]
    and one to [successfulQueries] or to [failedQueries], whatever [j] is. *)
Theorem query_counts_once_per_call (q : JSValue) (params : list JSValue)
    (w : World) (c : nat) (w1 : World) (j : nat) (ok : bool) :
  validQuery q → connectionState w = CONNECTED →
  getConnection (countQuery w) = Resolved c w1 →
  drawsRun w 1 j ok →
  ∃ w', query q params w = settle ok q params w' ∧
        attempts (trace w') = (attempts (trace w) + S j)%nat ∧
        totalQueries (stats w') = totalQueries (stats w) + 1 ∧
        successfulQueries (stats w') = successfulQueries (stats w) + (if ok then 1 else 0) ∧
        failedQueries (stats w') = failedQueries (stats w) + (if ok then 0 else 1).
Proof.
  intros Hq Hc Hg (Hfail & Hlast & Hle & Hend).
  destruct (getConnection_frame _ _ _ Hg) as (Hs & Ho & _ & Hcnt & Hqd & _ & Htr).
  assert (Hra : retryAttempts w1 = retryAttempts w) by (by injection Hs).
  assert (Hqf : queryDraw w1 = queryDraw w) by (by injection Ho).
  rewrite (query_connected q params w c w1 Hq Hc Hg).
  destruct (guarded_run c q params w1 j ok) as (w2 & Hrun & _ & Hm & _ & Htr2).
  { unfold drawsRun. rewrite Hra, Hqf, Hqd. done. }
  { lia. }
  eexists. split; [exact Hrun|].
  destruct (release_keeps_log_and_stats (Some c) (if ok then countSuccess w2 else countFailure w2))
    as (-> & -> & _).
  assert (Hst : stats w2 = stats w1) by (by injection Hm).
  unfold counters in Hcnt. simpl in Hcnt, Htr.
  injection Hcnt as Ht Hsu Hfa _.
  split.
  - replace (trace (if ok then countSuccess w2 else countFailure w2)) with (trace w2)
      by (by destruct ok).
    rewrite Htr2, Htr, !attempts_app, attempts_failedRounds.
    change (attempts [EvExecuteQuery c ok]) with 1%nat. lia.
  - destruct ok; simpl; rewrite Hst, Ht, Hsu, Hfa; repeat split; lia.
Qed.

Lemma query_counts_once_per_call_witness :
  validQuery (JSString "SELECT 1") ∧ connectionState flaky = CONNECTED ∧
  getConnection (countQuery flaky) = Resolved 0%nat (after getConnection (countQuery flaky)) ∧
  drawsRun flaky 1 2 true ∧
  ∃ w', query (JSString "SELECT 1") [] flaky = settle true (JSString "SELECT 1") [] w' ∧
        attempts (trace w') = (attempts (trace flaky) + 3)%nat ∧
        totalQueries (stats w') = totalQueries (stats flaky) + 1 ∧
        successfulQueries (stats w') = successfulQueries (stats flaky) + 1 ∧
        failedQueries (stats w') = failedQueries (stats flaky) + 0.
Proof.
  assert (H1 : validQuery (JSString "SELECT 1")) by (eexists; split; [reflexivity | discriminate]).
  assert (H2 : connectionState flaky = CONNECTED) by (vm_compute; reflexivity).
  assert (H3 : getConnection (countQuery flaky) =
               Resolved 0%nat (after getConnection (countQuery flaky)))
    by (vm_compute; reflexivity).
  assert (H4 : drawsRun flaky 1 2 true).
  { unfold drawsRun. split; [|split; [|split]].
    - intros [|[|i]] Hi; [reflexivity | reflexivity | lia].
    - reflexivity.
    - vm_compute. discriminate.
    - discriminate. }
  repeat (split; [assumption|]).
  exact (query_counts_once_per_call (JSString "SELECT 1") [] flaky 0
           (after getConnection (countQuery flaky)) 2 true H1 H2 H3 H4).
Defined.

(** C4, as stated, fails: with three attempts allowed and a unit of work
    that fails twice and then succeeds, the query returns the rows after
    three attempts, and the statistics have moved by one query and one
    success; no counter has moved by three. *)
Lemma query_attempts_not_counted :
  let w' := after (query (JSString "SELECT 1") []) flaky in
  retryAttempts flaky = 3 ∧
  verdict (query (JSString "SELECT 1") [] flaky)
    = Some (inl (exampleRows (JSString "SELECT 1") [])) ∧
  (attempts (trace w') - attempts (trace flaky))%nat = 3%nat ∧
  totalQueries (stats w') - totalQueries (stats flaky) = 1 ∧
  successfulQueries (stats w') - successfulQueries (stats flaky) = 1 ∧
  failedQueries (stats w') - failedQueries (stats flaky) = 0 ∧
  activeConnections (stats w') - activeConnections (stats flaky) = 0 ∧
  connectionErrors (stats w') - connectionErrors (stats flaky) = 0.
Proof. vm_compute. repeat split. Qed.

(** ** Acquiring *)

Lemma findAvailable_Some s p r :
  findAvailable s p = Some r → (∃ k, (k, r) ∈ p) ∧ inUse <$> s !! r = Some false.
Proof.
  induction p as [|[k r'] p IH]; simpl; [done|].
  destruct (s !! r') as [c|] eqn:Hc.
  - destruct (inUse c) eqn:Hu.
    + intros H. destruct (IH H) as [[k' Hin] Hfree].
      split; [exists k'; by apply elem_of_cons; right | done].
    + intros [= <-]. split; [exists k; by apply elem_of_cons; left|].
      by rewrite Hc; simpl; rewrite Hu.
  - intros H. destruct (IH H) as [[k' Hin] Hfree].
    split; [exists k'; by apply elem_of_cons; right | done].
Qed.

Lemma findAvailable_None s p k r :
  findAvailable s p = None → (k, r) ∈ p → inUse <$> s !! r ≠ Some false.
Proof.
  induction p as [|[k' r'] p IH]; simpl; [by intros _ ?%elem_of_nil|].
  destruct (s !! r') as [c|] eqn:Hc.
  - destruct (inUse c) eqn:Hu; [|done].
    intros H [[= -> ->]|Hin]%elem_of_cons; [|by apply IH].
    rewrite Hc. simpl. by rewrite Hu.
  - intros H [[= -> ->]|Hin]%elem_of_cons; [|by apply IH].
    by rewrite Hc.
Qed.

Lemma findAvailable_free w :
  (∃ r, freeIn w r) ↔ ∃ r, findAvailable (store w) (connectionPool w) = Some r.
Proof.
  split.
  - intros (r & [k Hin] & Hfree).
    destruct (findAvailable (store w) (connectionPool w)) as [r'|] eqn:Hf; [by exists r'|].
    by destruct (findAvailable_None _ _ _ _ Hf Hin).
  - intros [r Hf]. exists r. by apply findAvailable_Some.
Qed.

Lemma take_spec r w :
  is_Some (store w !! r) →
  inUseOf r (take r w) = Some true ∧
  lastUsed <$> store (take r w) !! r = Some (now w) ∧
  connectionPool (take r w) = connectionPool w ∧
  length (store (take r w)) = length (store w).
Proof.
  intros [c Hc]. unfold take, inUseOf. simpl.
  rewrite list_lookup_alter_eq, Hc, length_alter. done.
Qed.

Lemma addConnection_new w :
  let r := length (store w) in
  let w' := addConnection r (newConnection (advance 100 w)).2 in
  store w !! r = None ∧ length (store w') = S (length (store w)) ∧
  inUseOf r w' = Some true ∧ tracked r w' = true.
Proof.
  simpl. unfold addConnection, recordPoolSize, inUseOf, tracked, poolSet. simpl.
  set (c := Build_Connection _ _ _ _ _).
  assert (Hl : alter (set_inUse true) (length (store w)) (store w ++ [c]) !! length (store w)
               = Some (set_inUse true c)).
  { rewrite list_lookup_alter_eq, lookup_app_r by lia. by rewrite Nat.sub_diag. }
  rewrite Hl. simpl. rewrite Hl. simpl.
  rewrite length_alter, length_app, pool_has_set. simpl.
  repeat split; [by apply lookup_ge_None | lia].
Qed.

(** A caller suspended in [#getConnection] is rescheduled, whatever the
    clock says, until a scan finds a free connection. *)
Lemma resume_Waiting wake w :
  wake ≤ now w →
  match findAvailable (store w) (connectionPool w) with
  | Some r => resume (Waiting wake) w = (Holding r, take r w)
  | None => resume (Waiting wake) w = (Waiting (now w + 100), w)
  end.
Proof.
  intros Hdue. unfold resume, checkConnection.
  replace (now w <? wake) with false by (symmetry; apply Z.ltb_ge; lia).
  by destruct (findAvailable _ _).
Qed.

(** C3, as the code has it. If some resource of the pool is free, a free
    one is marked in use, stamped with the time and returned; if none
    is free and the pool is below [maxConnections], a new resource is
    created, marked in use, added to the pool and returned; otherwise the
    caller is suspended, and each later scan either hands it the first free
    resource or reschedules it. No timeout is involved: the promise is
    never rejected. *)
Theorem getConnection_contract (w : World) :
  ((∃ r, freeIn w r) →
     ∃ r w', getConnection w = Resolved r w' ∧ freeIn w r ∧
             inUseOf r w' = Some true ∧
             lastUsed <$> store w' !! r = Some (now w) ∧
             connectionPool w' = connectionPool w ∧
             length (store w') = length (store w)) ∧
  (¬ (∃ r, freeIn w r) → Z.of_nat (length (connectionPool w)) < maxConnections w →
     ∃ r w', getConnection w = Resolved r w' ∧ store w !! r = None ∧
             length (store w') = S (length (store w)) ∧
             inUseOf r w' = Some true ∧ tracked r w' = true) ∧
  (¬ (∃ r, freeIn w r) → maxConnections w ≤ Z.of_nat (length (connectionPool w)) →
     getConnection w = Pending ∧
     resume Calling w = (Waiting (now w + 100), w) ∧
     ∀ wake w2, wake ≤ now w2 →
       match findAvailable (store w2) (connectionPool w2) with
       | Some r => resume (Waiting wake) w2 = (Holding r, take r w2)
       | None => resume (Waiting wake) w2 = (Waiting (now w2 + 100), w2)
       end) ∧
  (∀ e w', getConnection w ≠ Rejected e w').
Proof.
  pose proof (getConnection_cases w) as Hcases.
  pose proof (findAvailable_free w) as Hfree.
  repeat split.
  - intros Hex. apply Hfree in Hex as [r Hr]. rewrite Hr in Hcases.
    destruct (findAvailable_Some _ _ _ Hr) as [Hin Hu].
    assert (Hsome : is_Some (store w !! r)).
    { destruct (store w !! r); [by eexists | done]. }
    destruct (take_spec r w Hsome) as (H1 & H2 & H3 & H4).
    exists r, (take r w). done.
  - intros Hno Hroom.
    destruct (findAvailable _ _) as [r|] eqn:Hr; [destruct Hno; apply Hfree; by exists r|].
    unfold poolNotFull in Hcases.
    replace (Z.of_nat (length (connectionPool w)) <? maxConnections w) with true in Hcases
      by (symmetry; apply Z.ltb_lt; lia).
    destruct (addConnection_new w) as (H1 & H2 & H3 & H4).
    eexists _, _. split; [exact Hcases|]. done.
  - destruct (findAvailable _ _) as [r|] eqn:Hr; [destruct H; apply Hfree; by exists r|].
    unfold poolNotFull in Hcases.
    replace (Z.of_nat (length (connectionPool w)) <? maxConnections w) with false in Hcases
      by (symmetry; apply Z.ltb_ge; lia).
    done.
  - destruct (findAvailable _ _) as [r|] eqn:Hr; [destruct H; apply Hfree; by exists r|].
    unfold resume, checkConnection, poolNotFull. rewrite Hr.
    replace (Z.of_nat (length (connectionPool w)) <? maxConnections w) with false
      by (symmetry; apply Z.ltb_ge; lia).
    done.
  - intros wake w2 Hdue. by apply resume_Waiting.
  - intros e w' Hrej. rewrite Hrej in Hcases.
    destruct (findAvailable _ _); [done|]. by destruct (poolNotFull w).
Qed.

Lemma getConnection_contract_witness :
  (∃ r, freeIn connected r) ∧
  (∃ r w', getConnection connected = Resolved r w' ∧ inUseOf r w' = Some true) ∧
  (¬ (∃ r, freeIn allTaken r) ∧
   Z.of_nat (length (connectionPool allTaken)) < maxConnections allTaken) ∧
  (∃ r w', getConnection allTaken = Resolved r w' ∧ store allTaken !! r = None ∧
           tracked r w' = true) ∧
  (¬ (∃ r, freeIn exhausted r) ∧
   maxConnections exhausted ≤ Z.of_nat (length (connectionPool exhausted))) ∧
  getConnection exhausted = Pending.
Proof.
  assert (H1 : ∃ r, freeIn connected r).
  { apply findAvailable_free. exists 0%nat. vm_compute. reflexivity. }
  assert (H2 : ¬ (∃ r, freeIn allTaken r)).
  { intros [r Hr]%findAvailable_free. vm_compute in Hr. discriminate Hr. }
  assert (H2' : Z.of_nat (length (connectionPool allTaken)) < maxConnections allTaken)
    by (vm_compute; reflexivity).
  assert (H3 : ¬ (∃ r, freeIn exhausted r)).
  { intros [r Hr]%findAvailable_free. vm_compute in Hr. discriminate Hr. }
  assert (H3' : maxConnections exhausted ≤ Z.of_nat (length (connectionPool exhausted)))
    by (vm_compute; discriminate).
  destruct (getConnection_contract connected) as (Ha & _).
  destruct (getConnection_contract allTaken) as (_ & Hb & _).
  destruct (getConnection_contract exhausted) as (_ & _ & Hc & _).
  destruct (Ha H1) as (r1 & w1 & Hg1 & _ & Hu1 & _).
  destruct (Hb H2 H2') as (r2 & w2 & Hg2 & Hn2 & _ & _ & Ht2).
  destruct (Hc H3 H3') as (Hp & _).
  split; [exact H1|].
  split; [exists r1, w1; exact (conj Hg1 Hu1)|].
  split; [exact (conj H2 H2')|].
  split; [exists r2, w2; exact (conj Hg2 (conj Hn2 Ht2))|].
  split; [exact (conj H3 H3')|]. exact Hp.
Defined.

(** C3, as stated, fails at its last clause: with every connection of a
    full pool in use, a caller that has waited 40 seconds, well past the
    30 seconds of [connectionTimeout], is still waiting to be rescheduled;
    nothing has been thrown. *)
Lemma acquire_never_times_out :
  let st := run (Resume 0 :: concat (repeat [Elapse 100; Resume 0] 400))
                ([Calling], exhausted) in
  connectionTimeout exhausted = 30000 ∧
  getConnection exhausted = Pending ∧
  now st.2 - now exhausted = 40000 ∧
  st.1 = [Waiting (now st.2 + 100)].
Proof. vm_compute. repeat split. Qed.

(** ** Transactions *)

Lemma beginTransaction_resolves c w :
  beginTransaction c w = Resolved tt (markTransaction true c (advance 50 w)).
Proof. done. Qed.

Lemma transaction_run {A} (f : nat → Async A) w c w1 :
  getConnection w = Resolved c w1 →
  transaction (AsyncFunction f) w =
  match f c (begun c w1) with
  | Resolved a w2 => Resolved a (ended c w2)
  | Rejected e w2 => Rejected e (ended c w2)
  | Pending => Pending
  end.
Proof.
  intros Hg. unfold transaction. unfold bind at 1. rewrite Hg.
  unfold try_finally, try_catch, bind, beginTransaction, commitTransaction,
    rollbackTransaction, sleep, effect, throw, ret, begun, ended. simpl.
  by destruct (f c _).
Qed.

Lemma getConnection_never_rejects w e w' : getConnection w ≠ Rejected e w'.
Proof.
  intros Hrej. pose proof (getConnection_cases w) as Hcases. rewrite Hrej in Hcases.
  destruct (findAvailable _ _); [done|]. by destruct (poolNotFull w).
Qed.

Lemma getConnection_skips_in_use c w c' w' :
  inUseOf c w = Some true → getConnection w = Resolved c' w' → c' ≠ c.
Proof.
  intros Hu Hg ->. pose proof (getConnection_cases w) as Hcases.
  destruct (findAvailable _ _) as [r|] eqn:Hr.
  - rewrite Hg in Hcases. injection Hcases as -> _.
    destruct (findAvailable_Some _ _ _ Hr) as [_ Hfree].
    unfold inUseOf in Hu. congruence.
  - destruct (poolNotFull w); rewrite Hg in Hcases; [|done].
    injection Hcases as -> _. unfold inUseOf in Hu.
    rewrite lookup_ge_None_2 in Hu by lia. done.
Qed.

(** C1, as the code has it. Nothing looks at [transactionActive]:
    beginning a transaction on a connection always succeeds and leaves the
    flag set, also when it was set already; a transaction started inside a
    transaction body is never handed the outer connection, which is in
    use; and [transaction] throws nothing of its own beyond the check of
    its argument: when it rejects, the error is one its callback threw. *)
Theorem transaction_never_checks_nesting (c : nat) (w : World) :
  (∃ w', beginTransaction c w = Resolved tt w' ∧
         (is_Some (store w !! c) → transactionActiveOf c w' = Some (Some true))) ∧
  (∀ c' w', inUseOf c w = Some true → getConnection w = Resolved c' w' → c' ≠ c) ∧
  (∀ A (f : nat → Async A) e w',
     transaction (AsyncFunction f) w = Rejected e w' →
     ∃ c0 w1 w2, f c0 w1 = Rejected e w2).
Proof.
  split; [|split].
  - eexists. split; [apply beginTransaction_resolves|].
    intros [x Hx]. unfold transactionActiveOf, markTransaction. simpl.
    by rewrite list_lookup_alter_eq, Hx.
  - intros c' w'. apply getConnection_skips_in_use.
  - intros A f e w' Hrej.
    destruct (getConnection w) as [c0 w1| e0 w0|] eqn:Hg.
    + rewrite (transaction_run f w c0 w1 Hg) in Hrej.
      destruct (f c0 (begun c0 w1)) as [a w2|e2 w2|] eqn:Hf; [done| |done].
      injection Hrej as -> _. by exists c0, (begun c0 w1), w2.
    + by destruct (getConnection_never_rejects w e0 w0).
    + unfold transaction, bind in Hrej. by rewrite Hg in Hrej.
Qed.

Lemma transaction_never_checks_nesting_witness :
  is_Some (store midTransaction !! 0%nat) ∧
  transactionActiveOf 0 midTransaction = Some (Some true) ∧
  inUseOf 0 midTransaction = Some true ∧
  (∃ w', beginTransaction 0 midTransaction = Resolved tt w' ∧
         transactionActiveOf 0 w' = Some (Some true)) ∧
  getConnection midTransaction = Resolved 1%nat (after getConnection midTransaction) ∧
  1%nat ≠ 0%nat.
Proof.
  assert (H1 : is_Some (store midTransaction !! 0%nat)) by (vm_compute; eexists; reflexivity).
  assert (H2 : inUseOf 0 midTransaction = Some true) by (vm_compute; reflexivity).
  assert (H3 : getConnection midTransaction = Resolved 1%nat (after getConnection midTransaction))
    by (vm_compute; reflexivity).
  destruct (transaction_never_checks_nesting 0 midTransaction) as ((w' & Hb & Hflag) & Hskip & _).
  split; [exact H1|]. split; [vm_compute; reflexivity|]. split; [exact H2|].
  split; [exists w'; exact (conj Hb (Hflag H1))|].
  split; [exact H3|]. exact (Hskip _ _ H2 H3).
Defined.

(** C1, as stated, fails: on a connection already marked
    [transactionActive], beginning a transaction resolves and the flag
    stays set; and a transaction started inside a transaction body
    resolves as well, on the next connection. Nothing is rejected. *)
Lemma nested_transaction_not_rejected :
  transactionActiveOf 0 midTransaction = Some (Some true) ∧
  verdict (beginTransaction 0 midTransaction) = Some (inl tt) ∧
  transactionActiveOf 0 (after (beginTransaction 0) midTransaction) = Some (Some true) ∧
  verdict (transaction
             (AsyncFunction (fun outer =>
                transaction (AsyncFunction (fun inner => ret (outer, inner)))))
             connected)
    = Some (inl (0%nat, 1%nat)).
Proof. vm_compute. repeat split. Qed.

(** ** Scoped acquisition *)




Lemma ended_releases c w :
  tracked c (ended c w) = tracked c w ∧
  (tracked c w = true → inUseOf c (ended c w) = Some false) ∧
  (is_Some (store w !! c) → transactionActiveOf c (ended c w) = Some (Some false)) ∧
  connectionPool (ended c w) = connectionPool w ∧
  trace (ended c w) = trace w.
Proof.
  unfold ended. set (w0 := markTransaction false c (advance 50 w)).
  assert (Ht0 : tracked c w0 = tracked c w).
  { unfold w0, tracked, markTransaction. simpl. rewrite list_lookup_alter_eq.
    by destruct (store w !! c). }
  rewrite release_tracked_same, Ht0.
  destruct (release_keeps_log_and_stats (Some c) w0) as (-> & _ & -> & _).
  repeat split.
  - intros Ht. apply release_tracked. by rewrite Ht0.
  - intros [x Hx]. unfold transactionActiveOf, releaseConnection.
    assert (Hx0 : store w0 !! c = Some (set_transactionActive false x)).
    { unfold w0, markTransaction. simpl. by rewrite list_lookup_alter_eq, Hx. }
    rewrite Hx0. destruct (pool_has _ _); simpl.
    + by rewrite !list_lookup_alter_eq, Hx.
    + by rewrite list_lookup_alter_eq, Hx.
Qed.

(** C8, as the code has it. When the callback of a transaction throws,
    the transaction has invoked it once, makes no further attempt, clears
    [transactionActive] on the connection, releases it and rethrows the
    same error. The connection is idle in the pool afterwards whenever the
    pool still tracks it when the callback throws. *)
Theorem transaction_rolls_back (A : Type) (f : nat → Async A)
    (w : World) (c : nat) (w1 w2 : World) (e : Thrown) :
  getConnection w = Resolved c w1 →
  f c (begun c w1) = Rejected e w2 →
  ∃ w', transaction (AsyncFunction f) w = Rejected e w' ∧
        trace (begun c w1) = trace w ++ [EvCallback c] ∧
        trace w' = trace w2 ∧
        (is_Some (store w2 !! c) → transactionActiveOf c w' = Some (Some false)) ∧
        (tracked c w2 = true → tracked c w' = true ∧ inUseOf c w' = Some false).
Proof.
  intros Hg Hf. rewrite (transaction_run f w c w1 Hg), Hf.
  destruct (getConnection_frame _ _ _ Hg) as (_ & _ & _ & _ & _ & _ & Htr).
  destruct (ended_releases c w2) as (Ht & Hrel & Hflag & Hpool & Htrace).
  exists (ended c w2). split; [done|]. split; [by unfold begun; simpl; rewrite Htr|].
  split; [done|]. split; [done|].
  intros Htracked. split; [by rewrite Ht | by apply Hrel].
Qed.

Lemma transaction_rolls_back_witness :
  getConnection connected = Resolved 0%nat busy ∧
  failingBody 0%nat (begun 0 busy) = Rejected (Error "boom") (begun 0 busy) ∧
  is_Some (store (begun 0 busy) !! 0%nat) ∧
  tracked 0 (begun 0 busy) = true ∧
  ∃ w', transaction (AsyncFunction failingBody) connected = Rejected (Error "boom") w' ∧
        invocations (trace w') = S (invocations (trace connected)) ∧
        transactionActiveOf 0 w' = Some (Some false) ∧
        tracked 0 w' = true ∧ inUseOf 0 w' = Some false.
Proof.
  assert (H1 : getConnection connected = Resolved 0%nat busy) by (vm_compute; reflexivity).
  assert (H2 : failingBody 0%nat (begun 0 busy) = Rejected (Error "boom") (begun 0 busy))
    by reflexivity.
  assert (H3 : is_Some (store (begun 0 busy) !! 0%nat)) by (vm_compute; eexists; reflexivity).
  assert (H4 : tracked 0 (begun 0 busy) = true) by (vm_compute; reflexivity).
  destruct (transaction_rolls_back unit failingBody connected 0 busy (begun 0 busy)
              (Error "boom") H1 H2) as (w' & Hrej & Hb & Htr & Hflag & Hidle).
  split; [exact H1|]. split; [exact H2|]. split; [exact H3|]. split; [exact H4|].
  exists w'. split; [exact Hrej|].
  split; [rewrite Htr; vm_compute; reflexivity|].
  split; [exact (Hflag H3)|]. exact (Hidle H4).
Defined.

(** C8, as stated, fails: a callback that disconnects the manager and
    then throws is rolled back and its error rethrown, but the connection
    is not returned to the idle resources: the pool is empty and the
    connection is still marked in use. *)
Lemma connection_not_idle_after_disconnect :
  let body : nat → Async unit := fun _ => disconnect ;; throw (Error "boom") in
  let w' := after (transaction (AsyncFunction body)) connected in
  getConnection connected = Resolved 0%nat busy ∧
  verdict (transaction (AsyncFunction body) connected) = Some (inr (Error "boom")) ∧
  transactionActiveOf 0 w' = Some (Some false) ∧
  connectionPool w' = [] ∧ idleCount w' = 0%nat ∧
  inUseOf 0 w' = Some true.
Proof. vm_compute. repeat split. Qed.

(** ** Disconnecting and reconnecting *)

Lemma sameRun_refl w : sameRun w w.
Proof. done. Qed.


Lemma delete_all (es : Pool) : ∀ p : Pool,
  (∀ e, e ∈ p → e.1 ∈ es.*1) →
  foldl (fun p e => pool_delete e.1 p) p es = [].
Proof.
  induction es as [|e0 es IH]; intros p Hsub; simpl.
  - destruct p as [|e p]; [done|].
    specialize (Hsub e (list_elem_of_here _ _)). by apply elem_of_nil in Hsub.
  - apply IH. intros e He. unfold pool_delete in He.
    apply list_elem_of_In, filter_In in He as [He Hne].
    apply list_elem_of_In in He. specialize (Hsub e He).
    apply negb_true_iff, bool_decide_eq_false in Hne.
    simpl in Hsub. apply elem_of_cons in Hsub as [Heq|Hin]; [congruence | done].
Qed.







(** ** What the manager can throw *)

Lemma initializeLoop_frame (n : nat) : ∀ w,
  ∃ w', initializeLoop n w = Resolved tt w' ∧
        length (store w') = (length (store w) + n)%nat ∧
        connectionState w' = connectionState w ∧ stats w' = stats w ∧
        trace w' = trace w ∧ now w' = now w + 100 * Z.of_nat n ∧
        connectDraws w' = connectDraws w.
Proof.
  induction n as [|n IH]; intros w.
  - exists w. repeat split; simpl; lia.
  - cbn [initializeLoop]. unfold bind at 1. unfold createConnection, bind, sleep, effect.
    cbn [newConnection]. unfold bind, effect.
    set (w0 := advance 100 w).
    set (c := Build_Connection _ _ _ _ _).
    set (w1 := set_draws _ _ _ _).
    assert (Hc : store w1 !! length (store w0) = Some c).
    { unfold w1. simpl. rewrite lookup_app_r by done. by rewrite Nat.sub_diag. }
    unfold poolSet. rewrite Hc. set (w2 := set_connectionPool _ _).
    destruct (IH w2) as (w' & Hrun & Hst & Hcs & Hstats & Htr & Hnow & Hcd).
    exists w'. split; [exact Hrun|].
    rewrite Hst, Hcs, Hstats, Htr, Hnow, Hcd. unfold w2. simpl. fixed_timers.
    rewrite length_app. simpl. repeat split; lia.
Qed.

(** The two ways [connect] can go. *)
Lemma connect_cases (w : World) :
  (connectionState w = CONNECTED ∨ connectionState w = CONNECTING →
     connect w = Resolved tt w) ∧
  (connectionState w = DISCONNECTED ∨ connectionState w = ERROR →
     if connectDraw w (connectDraws w) then
       ∃ w', connect w = Resolved tt w' ∧ connectionState w' = CONNECTED ∧
             length (store w') =
               (length (store w) + Z.to_nat (Z.min 3 (maxConnections w)))%nat ∧
             gauge w' ∧ connectionErrors (stats w') = connectionErrors (stats w) ∧
             trace w' = trace w ++ [EvEmit "connecting"; EvEmit "connected"] ∧
             now w' = now w + 1000 + 100 * Z.of_nat (Z.to_nat (Z.min 3 (maxConnections w)))
     else
       ∃ w', connect w = Rejected (Error "Connection timeout") w' ∧
             connectionState w' = ERROR ∧
             connectionPool w' = connectionPool w ∧ store w' = store w ∧
             connectionErrors (stats w') = connectionErrors (stats w) + 1 ∧
             trace w' = trace w ++ [EvEmit "connecting"; EvEmit "error"] ∧
             now w' = now w + 1000).
Proof.
  split.
  - intros [Hs|Hs]; unfold connect; by rewrite Hs.
  - intros Hs.
    assert (Hrun :
      if connectDraw w (connectDraws w) then
       ∃ w', (effect (set_connectionState CONNECTING) ;;
              emit "connecting" ;;
              try_catch
                (simulateConnection ;;
                 initializeConnectionPool ;;
                 effect (set_connectionState CONNECTED) ;;
                 emit "connected")
                (fun error =>
                   effect (set_connectionState ERROR) ;;
                   effect (fun w => set_stats (incr_connectionErrors (stats w)) w) ;;
                   emit "error" ;;
                   throw error)) w = Resolved tt w' ∧ connectionState w' = CONNECTED ∧
             length (store w') =
               (length (store w) + Z.to_nat (Z.min 3 (maxConnections w)))%nat ∧
             gauge w' ∧ connectionErrors (stats w') = connectionErrors (stats w) ∧
             trace w' = trace w ++ [EvEmit "connecting"; EvEmit "connected"] ∧
             now w' = now w + 1000 + 100 * Z.of_nat (Z.to_nat (Z.min 3 (maxConnections w)))
      else
       ∃ w', (effect (set_connectionState CONNECTING) ;;
              emit "connecting" ;;
              try_catch
                (simulateConnection ;;
                 initializeConnectionPool ;;
                 effect (set_connectionState CONNECTED) ;;
                 emit "connected")
                (fun error =>
                   effect (set_connectionState ERROR) ;;
                   effect (fun w => set_stats (incr_connectionErrors (stats w)) w) ;;
                   emit "error" ;;
                   throw error)) w = Rejected (Error "Connection timeout") w' ∧
             connectionState w' = ERROR ∧
             connectionPool w' = connectionPool w ∧ store w' = store w ∧
             connectionErrors (stats w') = connectionErrors (stats w) + 1 ∧
             trace w' = trace w ++ [EvEmit "connecting"; EvEmit "error"] ∧
             now w' = now w + 1000).
    { destruct (connectDraw w (connectDraws w)) eqn:Hd.
      - unfold bind at 1 2. unfold effect at 1. unfold emit at 1. unfold effect at 1.
        unfold try_catch. unfold bind at 1. unfold simulateConnection.
        unfold bind at 1. unfold sleep, effect at 1. cbn beta iota.
        set (w0 := advance 1000 _).
        replace (connectDraw w0 (connectDraws w0)) with true by (by rewrite <- Hd).
        set (w1 := set_draws _ _ _ _).
        unfold bind at 1. unfold initializeConnectionPool. unfold bind at 1.
        destruct (initializeLoop_frame (Z.to_nat (Z.min 3 (maxConnections w1))) w1)
          as (w2 & Hloop & Hst & Hcs & Hstats & Htr & Hnow & _).
        rewrite Hloop. unfold effect, emit, bind, effect. cbn beta iota.
        eexists. split; [reflexivity|]. unfold gauge, recordPoolSize. simpl.
        rewrite Hst, Hstats, Htr, Hnow. simpl.
        rewrite <- app_assoc. repeat split; simpl; lia.
      - unfold bind, effect, emit, effect, throw, try_catch, simulateConnection,
          bind, sleep, effect. simpl. rewrite Hd.
        eexists. split; [reflexivity|]. simpl. rewrite <- app_assoc.
        repeat split; simpl; lia. }
    unfold connect. by destruct Hs as [-> | ->].
Qed.

Lemma connect_rejects w e w' :
  connect w = Rejected e w' → e = Error "Connection timeout".
Proof.
  intros Hrej. destruct (connect_cases w) as (Hnoop & Hopen).
  destruct (connectionState w) eqn:Hs.
  - specialize (Hopen (or_introl eq_refl)).
    destruct (connectDraw w (connectDraws w)); destruct Hopen as (w1 & Hc & _);
      rewrite Hc in Hrej; [done | by injection Hrej as <- _].
  - by rewrite (Hnoop (or_intror eq_refl)) in Hrej.
  - by rewrite (Hnoop (or_introl eq_refl)) in Hrej.
  - specialize (Hopen (or_intror eq_refl)).
    destruct (connectDraw w (connectDraws w)); destruct Hopen as (w1 & Hc & _);
      rewrite Hc in Hrej; [done | by injection Hrej as <- _].
Qed.

Lemma retryLoop_rejects n : ∀ a lastError c q params w e w',
  retryLoop n a lastError c q params w = Rejected e w' →
  (n = 0%nat ∧ e = lastError) ∨ e = Error "Query execution failed".
Proof.
  induction n as [|n IH]; intros a lastError c q params w e w'.
  - simpl. intros [= <- _]. by left.
  - cbn [retryLoop]. rewrite executeQuery_settles.
    destruct (queryDraw w (queryDraws w)); simpl; [done|].
    unfold bind at 1.
    destruct (_ <? _); unfold delay, sleep, effect, ret, bind; simpl; intros Hrej;
      apply IH in Hrej as [[_ ->] | ->]; by right.
Qed.

Lemma guarded_rejects c q params w e w' :
  guarded c q params w = Rejected e w' →
  e = Error "Query execution failed" ∨
  (e = TypeError "Cannot read properties of undefined (reading 'message')" ∧
   retryAttempts w ≤ 0).
Proof.
  unfold guarded, try_finally, try_catch. unfold bind at 1. unfold executeQueryWithRetry.
  destruct (retryLoop _ _ _ _ _ _ w) as [a w1|e1 w1|] eqn:Hloop; [| |done].
  - unfold bind, effect, ret. simpl. done.
  - apply retryLoop_rejects in Hloop as [[Hn ->]| ->].
    + unfold bind, effect, reportFailure, throw. simpl. intros [= <- _]. right.
      split; [done | lia].
    + unfold bind, effect, reportFailure, throw, ret. simpl. intros [= <- _]. by left.
Qed.





(** ** The bound on the pool *)

(** The resources in use are resources of the pool. *)
Lemma inUseCount_le_size w : (inUseCount w ≤ length (connectionPool w))%nat.
Proof.
  unfold inUseCount. induction (connectionPool w) as [|e p IH]; simpl; [lia|].
  destruct (isInUse (store w) e); simpl; lia.
Qed.

(** Warming up creates [Math.min(3, maxConnections)] connections, all
    free, and adds them to whatever the pool holds already. *)
Lemma initializeLoop_creates (n : nat) : ∀ w,
  ∃ w', initializeLoop n w = Resolved tt w' ∧
        length (store w') = (length (store w) + n)%nat ∧
        (length (connectionPool w) ≤ length (connectionPool w')
           ≤ length (connectionPool w) + n)%nat ∧
        maxConnections w' = maxConnections w.
Proof.
  induction n as [|n IH]; intros w.
  - exists w. repeat split; simpl; lia.
  - cbn [initializeLoop]. unfold bind at 1. unfold createConnection, bind, sleep, effect.
    cbn [newConnection]. unfold bind, effect.
    set (w0 := advance 100 w).
    set (c := Build_Connection _ _ _ _ _).
    set (w1 := set_draws _ _ _ _).
    assert (Hc : store w1 !! length (store w0) = Some c).
    { unfold w1. simpl. rewrite lookup_app_r by done. by rewrite Nat.sub_diag. }
    unfold poolSet. rewrite Hc. set (w2 := set_connectionPool _ _).
    destruct (IH w2) as (w' & Hrun & Hst & Hpl & Hmax).
    exists w'. split; [exact Hrun|].
    pose proof (pool_set_length_le (conn_id c) (length (store w0)) (connectionPool w)) as Hl.
    unfold w2 in Hst, Hpl, Hmax. simpl in Hst, Hpl, Hmax.
    rewrite length_app in Hst. simpl in Hst, Hl.
    repeat split; [lia | lia | lia | done].
Qed.

Lemma connect_prewarms w w' :
  connectionState w = DISCONNECTED → connect w = Resolved tt w' →
  length (store w') = (length (store w) + Z.to_nat (Z.min 3 (maxConnections w)))%nat.
Proof.
  intros Hs. unfold connect. rewrite Hs.
  unfold bind at 1 2. unfold effect at 1. unfold emit at 1. unfold effect at 1.
  unfold try_catch. unfold bind at 1. unfold simulateConnection.
  unfold bind at 1. unfold sleep, effect at 1. cbn beta iota.
  set (w0 := advance 1000 _).
  destruct (connectDraw w0 (connectDraws w0)); [|done].
  set (w1 := set_draws _ _ _ _).
  unfold bind at 1. unfold initializeConnectionPool. unfold bind at 1.
  destruct (initializeLoop_creates (Z.to_nat (Z.min 3 (maxConnections w1))) w1)
    as (w2 & Hloop & Hst & _).
  rewrite Hloop. unfold effect, emit, bind, effect. cbn beta iota.
  intros [= <-]. simpl. exact Hst.
Qed.

(** With two connections allowed and three scoped callers that overlap,
    two connections exist in all and every caller completes. *)
Example three_callers_two_connections :
  let st := run [Resume 0; Resume 1; Resume 2; Elapse 10; Resume 0; Resume 1;
                 Elapse 90; Resume 2; Elapse 10; Resume 2]
                ([Calling; Calling; Calling], pair) in
  st.1 = [Done; Done; Done] ∧ length (store st.2) = 2%nat ∧
  length (connectionPool st.2) = 2%nat ∧ inUseCount st.2 = 0%nat.
Proof. vm_compute. repeat split. Qed.

(** C6, where the code goes over its bound. On the default manager,
    connected (three connections, ten allowed), eleven callers enter
    [#getConnection] before any of them is resumed: three take the
    connections of the pool, and each of the other eight finds the pool
    below its bound and goes on to create a connection. Once the eight
    timers have fired the pool holds eleven connections, all in use, one
    more than [maxConnections]. And with one connection allowed, a
    transaction on the manager before [connect] followed by [connect]
    leaves two connections in the pool. *)
Theorem pool_grows_past_maxConnections :
  (let st := run (map Resume (seq 0 11) ++ [Elapse 100] ++ map Resume (seq 3 8))
                 (repeat Calling 11, connected) in
   maxConnections connected = 10 ∧ length (connectionPool connected) = 3%nat ∧
   st.1 = map Holding (seq 0 11) ∧
   maxConnections st.2 = 10 ∧ length (connectionPool st.2) = 11%nat ∧
   inUseCount st.2 = 11%nat ∧ NoDup (connectionPool st.2).*1) ∧
  (let w := after connect (after (transaction (AsyncFunction (fun c => ret c))) single) in
   maxConnections w = 1 ∧ length (connectionPool w) = 2%nat ∧
   NoDup (connectionPool w).*1).
Proof.
  cbv zeta. split_and!; try (vm_compute; reflexivity);
    apply (bool_decide_unpack _); vm_compute; exact I.
Qed.

(** ** Well-formedness is maintained

    A fresh manager is well formed, and every method leaves a well-formed
    world well formed, so the worlds a program can reach are well
    formed. *)

Section Keeps.
Context (P : World → Prop).

Lemma keeps_ret {A} (a : A) : keeps P (ret a).
Proof. by intros w w' HP [= <-]. Qed.

Lemma keeps_throw {A} (e : Thrown) : keeps P (@throw A e).
Proof. by intros w w' HP [= <-]. Qed.

Lemma keeps_effect (f : World → World) :
  (∀ w, P w → P (f w)) → keeps P (effect f).
Proof. intros Hf w w' HP [= <-]. by apply Hf. Qed.

Lemma keeps_bind {A B} (m : Async A) (k : A → Async B) :
  keeps P m → (∀ a, keeps P (k a)) → keeps P (bind m k).
Proof.
  intros Hm Hk w w' HP. unfold bind.
  destruct (m w) as [a w1|e w1|] eqn:Hmw.
  - apply (Hk a). apply (Hm w w1 HP). by rewrite Hmw.
  - intros [= <-]. apply (Hm w w1 HP). by rewrite Hmw.
  - done.
Qed.

Lemma keeps_try_catch {A} (body : Async A) (handler : Thrown → Async A) :
  keeps P body → (∀ e, keeps P (handler e)) → keeps P (try_catch body handler).
Proof.
  intros Hm Hh w w' HP. unfold try_catch.
  destruct (body w) as [a w1|e w1|] eqn:Hmw.
  - intros [= <-]. apply (Hm w w1 HP). by rewrite Hmw.
  - apply (Hh e). apply (Hm w w1 HP). by rewrite Hmw.
  - done.
Qed.

Lemma keeps_try_finally {A} (body : Async A) (finalizer : World → World) :
  keeps P body → (∀ w, P w → P (finalizer w)) → keeps P (try_finally body finalizer).
Proof.
  intros Hm Hf w w' HP. unfold try_finally.
  destruct (body w) as [a w1|e w1|] eqn:Hmw; [| |done].
  - intros [= <-]. apply Hf, (Hm w w1 HP). by rewrite Hmw.
  - intros [= <-]. apply Hf, (Hm w w1 HP). by rewrite Hmw.
Qed.

Lemma keeps_reading {A} (m : World → Async A) :
  (∀ w0, keeps P (m w0)) → keeps P (fun w => m w w).
Proof. intros Hm w w' HP. by apply (Hm w). Qed.
End Keeps.

Lemma wf_constructor t cd qd sd : wf (constructor t cd qd sd).
Proof. split; simpl; constructor. Qed.

Lemma wf_alter (f : Connection → Connection) r w :
  (∀ c, conn_id (f c) = conn_id c) → wf w → wf (set_store (alter f r (store w)) w).
Proof.
  intros Hf [Hfiled Hnd]. split; [|done]. simpl.
  eapply Forall_impl; [exact Hfiled|]. intros e He. unfold filed in *.
  destruct (decide (r = e.2)) as [->|Hne].
  - rewrite list_lookup_alter_eq. destruct (store w !! e.2); simpl in *; [|done].
    by rewrite Hf.
  - by rewrite list_lookup_alter_ne.
Qed.

Lemma wf_release h w : wf w → wf (releaseConnection h w).
Proof.
  intros Hwf. unfold releaseConnection. destruct h as [r|]; [|done].
  destruct (store w !! r); [|done]. destruct (pool_has _ _); [|done].
  by apply wf_alter.
Qed.

Lemma wf_take r w : wf w → wf (take r w).
Proof. intros Hwf. by apply wf_alter. Qed.

Lemma wf_markTransaction b r w : wf w → wf (markTransaction b r w).
Proof. intros Hwf. by apply wf_alter. Qed.

Lemma pool_set_refs k r (p : Pool) :
  NoDup p.*2 → r ∉ p.*2 → NoDup (pool_set k r p).*2.
Proof.
  induction p as [|[k' r'] p IH]; simpl; intros Hnd Hr.
  - apply NoDup_singleton.
  - apply NoDup_cons in Hnd as [Hr' Hnd]. apply not_elem_of_cons in Hr as [Hne Hr].
    case_bool_decide; simpl.
    + apply NoDup_cons. done.
    + apply NoDup_cons. split; [|by apply IH].
      intros Hin. apply list_elem_of_fmap in Hin as ([k0 r0] & Heq & Hin). simpl in Heq. subst r0.
      apply pool_set_elem in Hin as [[= _ ->]|Hin]; [done|].
      apply Hr'. apply list_elem_of_fmap. by exists (k0, r').
Qed.

(** A connection just created, set in the pool under its id. *)
Lemma wf_poolSet_new w w1 c :
  store w1 = store w ++ [c] → connectionPool w1 = connectionPool w →
  wf w → wf (poolSet (length (store w)) w1).
Proof.
  intros Hst Hpl [Hfiled Hnd]. unfold poolSet. rewrite Hst.
  rewrite lookup_app_r by done. rewrite Nat.sub_diag. simpl.
  assert (Hold : ∀ e, e ∈ connectionPool w → (e.2 < length (store w))%nat).
  { intros e He. rewrite Forall_forall in Hfiled. specialize (Hfiled e He).
    unfold filed in Hfiled. destruct (store w !! e.2) eqn:Hx; [|done].
    by apply lookup_lt_Some in Hx. }
  split; simpl; rewrite Hpl.
  - rewrite Hst. apply Forall_forall. intros e He. unfold filed.
    apply pool_set_elem in He as [->|He].
    + simpl. rewrite lookup_app_r by done. by rewrite Nat.sub_diag.
    + rewrite Forall_forall in Hfiled. specialize (Hfiled e He). unfold filed in Hfiled.
      destruct (store w !! e.2) as [x|] eqn:Hx; [|done].
      by rewrite (lookup_app_l_Some _ _ _ _ Hx).
  - apply pool_set_refs; [done|].
    intros Hin. apply list_elem_of_fmap in Hin as (e & Heq & Hin).
    specialize (Hold e Hin). lia.
Qed.

Lemma wf_pool_delete k w :
  wf w → wf (set_connectionPool (pool_delete k (connectionPool w)) w).
Proof.
  intros [Hfiled Hnd]. unfold pool_delete. split; simpl.
  - apply Forall_forall. intros e He. rewrite Forall_forall in Hfiled. apply Hfiled.
    apply list_elem_of_In, filter_In in He as [He _]. by apply list_elem_of_In.
  - revert Hnd. generalize (connectionPool w). intros p.
    induction p as [|e p IH]; simpl; [done|].
    intros [Hr Hnd]%NoDup_cons. destruct (negb _); simpl; [|by apply IH].
    apply NoDup_cons. split; [|by apply IH].
    intros Hin. apply Hr. apply list_elem_of_fmap in Hin as (e' & Heq & Hin).
    apply list_elem_of_fmap. exists e'. split; [done|].
    apply list_elem_of_In, filter_In in Hin as [Hin _]. by apply list_elem_of_In.
Qed.

Lemma keeps_wf_createConnection_set :
  keeps wf (connection <- createConnection ;; effect (poolSet connection)).
Proof.
  intros w w' Hwf. unfold bind, createConnection, bind, sleep, effect. cbn beta iota.
  cbn [newConnection]. intros [= <-].
  set (c := Build_Connection _ _ _ _ _).
  by apply (wf_poolSet_new w _ c).
Qed.

Lemma keeps_wf_initializeLoop n : keeps wf (initializeLoop n).
Proof.
  induction n as [|n IH]; simpl; [apply keeps_ret|].
  intros w w' Hwf. unfold bind at 1.
  pose proof (keeps_wf_createConnection_set w) as Hstep.
  unfold bind in Hstep at 1.
  destruct (createConnection w) as [r w1|e w1|] eqn:Hc; [| |done].
  - unfold bind at 1. unfold effect at 1. apply IH. by apply Hstep.
  - unfold createConnection, bind, sleep, effect in Hc. cbn in Hc. done.
Qed.

Lemma keeps_wf_connect : keeps wf connect.
Proof.
  assert (Hbody : keeps wf
    (effect (set_connectionState CONNECTING) ;;
     emit "connecting" ;;
     try_catch
       (simulateConnection ;;
        initializeConnectionPool ;;
        effect (set_connectionState CONNECTED) ;;
        emit "connected")
       (fun error =>
          effect (set_connectionState ERROR) ;;
          effect (fun w => set_stats (incr_connectionErrors (stats w)) w) ;;
          emit "error" ;;
          throw error))).
  { apply keeps_bind; [by apply keeps_effect|]. intros _.
    apply keeps_bind; [by apply keeps_effect|]. intros _.
    apply keeps_try_catch.
    - apply keeps_bind.
      { apply keeps_bind; [by apply keeps_effect|]. intros _.
        intros w w' Hwf. by destruct (connectDraw w (connectDraws w)); intros [= <-]. }
      intros _. apply keeps_bind.
      { apply keeps_bind; [|intros _; by apply keeps_effect].
        apply (keeps_reading wf (fun w0 => initializeLoop (Z.to_nat (Z.min 3 (maxConnections w0))))).
        intros w0. apply keeps_wf_initializeLoop. }
      intros _. apply keeps_bind; [by apply keeps_effect|]. intros _. by apply keeps_effect.
    - intros e. apply keeps_bind; [by apply keeps_effect|]. intros _.
      apply keeps_bind; [by apply keeps_effect|]. intros _.
      apply keeps_bind; [by apply keeps_effect|]. intros _. apply keeps_throw. }
  intros w w' Hwf. unfold connect.
  destruct (connectionState w); try (by intros [= <-]); by apply Hbody.
Qed.

Lemma keeps_wf_closeAll es : keeps wf (closeAll es).
Proof.
  induction es as [|[k r] es IH]; simpl; [apply keeps_ret|].
  apply keeps_bind; [by apply keeps_effect|]. intros _.
  apply keeps_bind; [|intros _; exact IH].
  apply keeps_effect. intros w Hwf. by apply wf_pool_delete.
Qed.

Lemma keeps_wf_disconnect : keeps wf disconnect.
Proof.
  intros w w' Hwf. unfold disconnect.
  assert (Hbody : keeps wf
    (effect (set_connectionState DISCONNECTED) ;;
     emit "disconnected" ;;
     (fun w => closeAll (connectionPool w) w) ;;
     effect (fun w => set_stats (set_activeConnections 0 (stats w)) w))).
  { apply keeps_bind; [by apply keeps_effect|]. intros _.
    apply keeps_bind; [by apply keeps_effect|]. intros _.
    apply keeps_bind; [|intros _; by apply keeps_effect].
    apply (keeps_reading wf (fun w0 => closeAll (connectionPool w0))).
    intros w0. apply keeps_wf_closeAll. }
  destruct (connectionState w); try (by apply Hbody); by intros [= <-].
Qed.

Lemma keeps_wf_getConnection : keeps wf getConnection.
Proof.
  intros w w' Hwf. pose proof (getConnection_cases w) as Hcases.
  destruct (findAvailable _ _) as [r|].
  - rewrite Hcases. intros [= <-]. by apply wf_take.
  - destruct (poolNotFull w); rewrite Hcases; [|done].
    intros [= <-]. unfold addConnection, recordPoolSize. cbn [newConnection snd].
    set (c := Build_Connection _ _ _ _ _).
    apply (wf_poolSet_new w _ (set_inUse true c)); [|done|done].
    simpl. rewrite alter_app_r_alt by done. by rewrite Nat.sub_diag.
Qed.

Lemma keeps_wf_retryLoop n : ∀ a lastError c q params,
  keeps wf (retryLoop n a lastError c q params).
Proof.
  induction n as [|n IH]; intros a lastError c q params; simpl; [apply keeps_throw|].
  intros w w' Hwf. rewrite executeQuery_settles.
  destruct (queryDraw w (queryDraws w)); simpl; [by intros [= <-]|].
  unfold bind at 1.
  destruct (a <? retryAttempts w); simpl; apply IH; done.
Qed.

(** [query] maintains well-formedness. *)
Lemma keeps_wf_query q params : keeps wf (query q params).
Proof.
  unfold query. destruct (negb _ || negb _); [apply keeps_throw|].
  apply keeps_bind; [by apply keeps_effect|]. intros _.
  apply keeps_bind.
  { intros w w' Hwf. unfold ensureConnected. case_bool_decide; [|by intros [= <-]].
    by apply keeps_wf_connect. }
  intros _. apply keeps_bind; [apply keeps_wf_getConnection|]. intros c.
  apply keeps_try_finally; [|intros w; apply wf_release].
  apply keeps_try_catch.
  - apply keeps_bind.
    { apply (keeps_reading wf (fun w0 => retryLoop (Z.to_nat (retryAttempts w0)) 1
               (ThrownValue JSUndefined) c q params)).
      intros w0. apply keeps_wf_retryLoop. }
    intros r. apply keeps_bind; [by apply keeps_effect | intros _; apply keeps_ret].
  - intros e. apply keeps_bind; [by apply keeps_effect|]. intros _.
    apply keeps_bind; [|intros _; apply keeps_throw].
    unfold reportFailure. destruct (message_unreadable e); [apply keeps_throw | apply keeps_ret].
Qed.

(** [transaction] maintains well-formedness when its callback does. *)
Lemma keeps_wf_transaction {A} (callback : Callback A) :
  (∀ f c, callback = AsyncFunction f → keeps wf (f c)) →
  keeps wf (transaction callback).
Proof.
  intros Hf. destruct callback as [v|f]; simpl; [apply keeps_throw|].
  apply keeps_bind; [apply keeps_wf_getConnection|]. intros c.
  apply keeps_try_finally; [|intros w; apply wf_release].
  apply keeps_try_catch.
  - apply keeps_bind.
    { apply keeps_bind; [by apply keeps_effect|]. intros _.
      apply keeps_effect. intros w. apply wf_markTransaction. }
    intros _. apply keeps_bind.
    { apply keeps_bind; [by apply keeps_effect|]. intros _. by apply (Hf f c). }
    intros a. apply keeps_bind; [|intros _; apply keeps_ret].
    apply keeps_bind; [by apply keeps_effect|]. intros _.
    apply keeps_effect. intros w. apply wf_markTransaction.
  - intros e. apply keeps_bind; [|intros _; apply keeps_throw].
    apply keeps_bind; [by apply keeps_effect|]. intros _.
    apply keeps_effect. intros w. apply wf_markTransaction.
Qed.

(** ** Scoped calls release *)






(** ** The two views of [#getConnection] agree

    Run alone, a caller that is resumed when its timer is due gets from
    [resume] what [getConnection] gives. *)
Lemma getConnection_resume w :
  match resume Calling w with
  | (Holding r, w') => getConnection w = Resolved r w'
  | (Creating wake, w') =>
      wake = now w + 100 ∧
      ∃ r w'', resume (Creating wake) (advance 100 w') = (Holding r, w'') ∧
               getConnection w = Resolved r w''
  | (Waiting wake, w') => w' = w ∧ getConnection w = Pending
  | _ => False
  end.
Proof.
  pose proof (getConnection_cases w) as Hcases.
  unfold resume at 1. unfold checkConnection.
  destruct (findAvailable _ _) as [r|] eqn:Hr; [done|].
  destruct (poolNotFull w).
  - split; [done|]. eexists _, _. split; [|exact Hcases].
    unfold resume. simpl.
    change (timerDuration 100) with 100.
    replace (now w + 100 <? now w + 100) with false
      by (symmetry; apply Z.ltb_ge; lia).
    done.
  - done.
Qed.

(** * Further properties of the manager *)

(** ** Listeners *)

Lemma Listeners_get_set_eq event ls m :
  Listeners.get event (Listeners.set event ls m) = Some ls.
Proof.
  induction m as [|[e ls'] m IH]; simpl.
  - by rewrite String.eqb_refl.
  - destruct (String.eqb e event) eqn:He; simpl; rewrite He; [done | exact IH].
Qed.

Lemma Listeners_get_set_ne event event' ls m :
  event ≠ event' →
  Listeners.get event' (Listeners.set event ls m) = Listeners.get event' m.
Proof.
  intros Hne. induction m as [|[e ls'] m IH]; simpl.
  - apply String.eqb_neq in Hne. by rewrite Hne.
  - destruct (String.eqb e event) eqn:He; simpl.
    + apply String.eqb_eq in He. subst e.
      apply String.eqb_neq in Hne. by rewrite Hne.
    + destruct (String.eqb e event'); [done | exact IH].
Qed.

Lemma Listeners_splice_push listener ls :
  listener ∉ ls → Listeners.spliceFirst listener (ls ++ [listener]) = ls.
Proof.
  induction ls as [|l ls IH]; simpl; intros Hnot.
  - by rewrite Nat.eqb_refl.
  - apply not_elem_of_cons in Hnot as [Hne Hnot].
    replace (l =? listener)%nat with false by (symmetry; apply Nat.eqb_neq; congruence).
    by rewrite IH.
Qed.

Lemma Listeners_splice_absent listener ls :
  listener ∉ ls → Listeners.spliceFirst listener ls = ls.
Proof.
  induction ls as [|l ls IH]; simpl; intros Hnot; [done|].
  apply not_elem_of_cons in Hnot as [Hne Hnot].
  replace (l =? listener)%nat with false by (symmetry; apply Nat.eqb_neq; congruence).
  by rewrite IH.
Qed.

(** Registering a listener and removing it again leaves every event with
    the listeners it had, provided the listener was not registered for
    the event before; removing a listener that is not registered changes
    the listeners of no event. *)
Theorem Listeners_on_off (event : string) (listener : nat) (m : Listeners.Registry) :
  listener ∉ Listeners.listenersOf event m →
  (∀ e, Listeners.listenersOf e (Listeners.off event listener (Listeners.on event listener m))
        = Listeners.listenersOf e m) ∧
  (∀ e, Listeners.listenersOf e (Listeners.off event listener m)
        = Listeners.listenersOf e m).
Proof.
  intros Hnot. split; intros e.
  - unfold Listeners.off, Listeners.on, Listeners.listenersOf in *.
    destruct (Listeners.get event m) as [ls|] eqn:Hget.
    + rewrite Listeners_get_set_eq.
      destruct (decide (event = e)) as [<-|Hne].
      * by rewrite Listeners_get_set_eq, Hget, Listeners_splice_push.
      * by rewrite !Listeners_get_set_ne.
    + rewrite Listeners_get_set_eq.
      destruct (decide (event = e)) as [<-|Hne].
      * rewrite Listeners_get_set_eq, Hget. simpl. by rewrite Nat.eqb_refl.
      * by rewrite !Listeners_get_set_ne.
  - unfold Listeners.off, Listeners.listenersOf in *.
    destruct (Listeners.get event m) as [ls|] eqn:Hget; [|done].
    destruct (decide (event = e)) as [<-|Hne].
    + by rewrite Listeners_get_set_eq, Hget, Listeners_splice_absent.
    + by rewrite Listeners_get_set_ne.
Qed.

Lemma Listeners_on_off_witness :
  (7%nat ∉ Listeners.listenersOf "connected" [("connected", [3%nat; 5%nat])]) ∧
  Listeners.listenersOf "connected"
    (Listeners.off "connected" 7 (Listeners.on "connected" 7 [("connected", [3%nat; 5%nat])]))
  = [3%nat; 5%nat].
Proof.
  assert (H : 7%nat ∉ Listeners.listenersOf "connected" [("connected", [3%nat; 5%nat])]).
  { simpl. intros Hin. apply list_elem_of_In in Hin. simpl in Hin.
    destruct Hin as [Hin|[Hin|[]]]; discriminate Hin. }
  split; [exact H|].
  destruct (Listeners_on_off "connected" 7 [("connected", [3%nat; 5%nat])] H) as [Hon _].
  exact (Hon "connected").
Defined.

Lemma Listeners_splice_first listener ls :
  listener ∈ ls →
  ∃ before after, ls = before ++ listener :: after ∧ (listener ∉ before) ∧
                  Listeners.spliceFirst listener ls = before ++ after.
Proof.
  induction ls as [|x ls IH]; simpl; intros Hin; [by apply elem_of_nil in Hin|].
  destruct (x =? listener)%nat eqn:Hx.
  - apply Nat.eqb_eq in Hx. subst x. exists [], ls.
    split; [done|]. split; [apply not_elem_of_nil | done].
  - apply Nat.eqb_neq in Hx.
    destruct IH as (before & after & -> & Hnot & ->).
    { by apply elem_of_cons in Hin as [->|Hin]. }
    exists (x :: before), after. split; [done|]. split; [|done].
    intros [->|Hb]%elem_of_cons; [done | by apply Hnot].
Qed.

(** [off] removes one registration only, the first one: of the listeners
    of the event, in their order, the first occurrence of the listener
    goes and everything before and after it stays as it is, later
    registrations of the same listener included; no other event is
    touched. *)
Theorem Listeners_off_removes_one (event : string) (listener : nat) (m : Listeners.Registry) :
  listener ∈ Listeners.listenersOf event m →
  (∃ before after,
     Listeners.listenersOf event m = before ++ listener :: after ∧
     (listener ∉ before) ∧
     Listeners.listenersOf event (Listeners.off event listener m) = before ++ after) ∧
  (∀ e, e ≠ event →
     Listeners.listenersOf e (Listeners.off event listener m) = Listeners.listenersOf e m).
Proof.
  intros Hin. unfold Listeners.off, Listeners.listenersOf in *.
  destruct (Listeners.get event m) as [ls|] eqn:Hget; [|by apply elem_of_nil in Hin].
  rewrite Listeners_get_set_eq. split.
  - by apply Listeners_splice_first.
  - intros e Hne. by rewrite Listeners_get_set_ne.
Qed.

Lemma Listeners_off_removes_one_witness :
  7%nat ∈ Listeners.listenersOf "error" [("error", [7%nat; 3%nat; 7%nat])] ∧
  Listeners.listenersOf "error" (Listeners.off "error" 7 [("error", [7%nat; 3%nat; 7%nat])])
  = [3%nat; 7%nat] ∧
  (∃ before after,
     Listeners.listenersOf "error" [("error", [7%nat; 3%nat; 7%nat])]
       = before ++ 7%nat :: after ∧
     (7%nat ∉ before) ∧
     Listeners.listenersOf "error"
       (Listeners.off "error" 7 [("error", [7%nat; 3%nat; 7%nat])]) = before ++ after).
Proof.
  assert (H : 7%nat ∈ Listeners.listenersOf "error" [("error", [7%nat; 3%nat; 7%nat])])
    by (simpl; apply list_elem_of_here).
  split; [exact H|]. split; [reflexivity|].
  exact (proj1 (Listeners_off_removes_one "error" 7 [("error", [7%nat; 3%nat; 7%nat])] H)).
Defined.

Lemma Listeners_emit_fold {S : Type} (behave : nat → S → S * bool) ls : ∀ s thrown,
  (fold_left
     (fun acc l =>
        let '(s', threw) := behave l acc.1 in
        (s', if threw then acc.2 ++ [l] else acc.2)) ls (s, thrown)).1
  = fold_left (fun s l => (behave l s).1) ls s.
Proof.
  induction ls as [|l ls IH]; intros s thrown; simpl; [done|].
  destruct (behave l s) as [s' threw] eqn:Hb. simpl. apply IH.
Qed.

(** [#emit] calls every listener of the event, in the order of
    registration, each on the state its predecessor left, whether or not
    a predecessor threw; an event nobody listens to changes nothing. *)
Theorem Listeners_emit_calls_all {S : Type} (behave : nat → S → S * bool)
    (event : string) (m : Listeners.Registry) (s : S) :
  (Listeners.emit behave event m s).1
    = fold_left (fun s l => (behave l s).1) (Listeners.listenersOf event m) s ∧
  (Listeners.get event m = None → Listeners.emit behave event m s = (s, [])).
Proof.
  split.
  - unfold Listeners.emit. apply Listeners_emit_fold.
  - intros Hnone. unfold Listeners.emit, Listeners.listenersOf. by rewrite Hnone.
Qed.

(** ** Connecting and disconnecting *)



Lemma closeAll_frame (es : Pool) : ∀ w,
  ∃ w', closeAll es w = Resolved tt w' ∧
        connectionPool w' = foldl (fun p e => pool_delete e.1 p) (connectionPool w) es ∧
        connectionState w' = connectionState w ∧ store w' = store w ∧
        stats w' = stats w ∧ trace w' = trace w ∧
        now w' = now w + 50 * Z.of_nat (length es) ∧ settings w' = settings w.
Proof.
  induction es as [|[k r] es IH]; intros w; simpl.
  - exists w. repeat split; simpl; lia.
  - unfold bind, closeConnection, sleep, effect. simpl.
    set (w1 := set_connectionPool _ _).
    destruct (IH w1) as (w' & Hrun & Hp & Hs & Hst & Hstats & Htr & Hnow & Hset).
    exists w'. split; [exact Hrun|]. rewrite Hp, Hs, Hst, Hstats, Htr, Hnow, Hset.
    unfold w1. simpl. fixed_timers. repeat split; lia.
Qed.

(** What [disconnect] leaves behind. *)
Lemma disconnect_cases (w : World) :
  connectionState w ≠ DISCONNECTED →
  ∃ w', disconnect w = Resolved tt w' ∧
        connectionState w' = DISCONNECTED ∧ connectionPool w' = [] ∧
        activeConnections (stats w') = 0 ∧ store w' = store w ∧
        settings w' = settings w ∧
        trace w' = trace w ++ [EvEmit "disconnected"] ∧
        now w' = now w + 50 * Z.of_nat (length (connectionPool w)) ∧
        disconnect w' = Resolved tt w'.
Proof.
  intros Hs.
  assert (Hrun : ∃ w', (effect (set_connectionState DISCONNECTED) ;;
                        emit "disconnected" ;;
                        (fun w => closeAll (connectionPool w) w) ;;
                        effect (fun w => set_stats (set_activeConnections 0 (stats w)) w)) w
                       = Resolved tt w' ∧
        connectionState w' = DISCONNECTED ∧ connectionPool w' = [] ∧
        activeConnections (stats w') = 0 ∧ store w' = store w ∧
        settings w' = settings w ∧
        trace w' = trace w ++ [EvEmit "disconnected"] ∧
        now w' = now w + 50 * Z.of_nat (length (connectionPool w)) ∧
        disconnect w' = Resolved tt w').
  { unfold bind, effect, emit. simpl.
    set (w1 := log _ _).
    destruct (closeAll_frame (connectionPool w) w1)
      as (w' & -> & Hp & Hst & Hstore & Hstats & Htr & Hnow & Hset).
    eexists. split; [reflexivity|]. simpl.
    rewrite Hst, Hstore, Hp, Htr, Hnow. simpl.
    split; [done|].
    split; [apply delete_all; intros e He; apply list_elem_of_fmap; by exists e|].
    do 2 (split; [done|]).
    split; [unfold settings in *; simpl in *; exact Hset|].
    do 2 (split; [done|]).
    unfold disconnect. simpl. by rewrite Hst. }
  unfold disconnect at 1. by destruct (connectionState w).
Qed.



(** ** [configure] *)

(** [configure] replaces the five settings as a whole: an option left out
    is reset to its default, whatever an earlier call had set, so of two
    calls only the second counts; the state, the pool, the counters and
    the connections are not touched. (The [#config] object, which
    [configure] merges and nothing reads, is not part of the world.) *)
Theorem configure_replaces (o1 o2 : Options) (w : World) :
  configure o2 (configure o1 w) = configure o2 w ∧
  manager (configure o1 w) = manager w ∧
  settings (configure {| opt_maxConnections := None; opt_connectionTimeout := None;
                         opt_queryTimeout := None; opt_retryAttempts := None;
                         opt_retryDelay := None |} w)
    = (10, 30000, 10000, 3, 1000) ∧
  (opt_maxConnections o2 = None → maxConnections (configure o2 (configure o1 w)) = 10).
Proof.
  split; [done|]. split; [done|]. split; [done|].
  intros Hnone. unfold configure. simpl. by rewrite Hnone.
Qed.

Lemma configure_replaces_witness :
  opt_maxConnections
    {| opt_maxConnections := None; opt_connectionTimeout := None;
       opt_queryTimeout := None; opt_retryAttempts := Some 5;
       opt_retryDelay := None |} = None ∧
  maxConnections single = 1 ∧
  maxConnections
    (configure {| opt_maxConnections := None; opt_connectionTimeout := None;
                  opt_queryTimeout := None; opt_retryAttempts := Some 5;
                  opt_retryDelay := None |} single) = 10.
Proof.
  split; [reflexivity|]. split; [reflexivity|].
  exact (proj2 (proj2 (proj2 (configure_replaces
           {| opt_maxConnections := Some 1; opt_connectionTimeout := None;
              opt_queryTimeout := None; opt_retryAttempts := None;
              opt_retryDelay := None |}
           {| opt_maxConnections := None; opt_connectionTimeout := None;
              opt_queryTimeout := None; opt_retryAttempts := Some 5;
              opt_retryDelay := None |} (calm 0)))) eq_refl).
Defined.

(** ** Invariants *)

(** The retry loop keeps whatever a run of the unit of work and a delay
    keep. *)
Lemma keeps_retryLoop (P : World → Prop) n : ∀ a lastError c q params,
  (∀ w, P w → P (attempted c w)) → (∀ w ms, P w → P (delayed ms w)) →
  keeps P (retryLoop n a lastError c q params).
Proof.
  induction n as [|n IH]; intros a lastError c q params Hatt Hdel; simpl; [apply keeps_throw|].
  intros w w' HP. rewrite executeQuery_settles.
  destruct (queryDraw w (queryDraws w)) eqn:Hd; simpl.
  - intros [= <-]. by apply Hatt.
  - unfold bind at 1.
    replace (retryAttempts (attempted c w)) with (retryAttempts w) by done.
    replace (retryDelay (attempted c w)) with (retryDelay w) by done.
    destruct (a <? retryAttempts w); simpl.
    + apply IH; [done|done|]. apply (Hdel (attempted c w)). by apply Hatt.
    + apply IH; [done|done|]. by apply Hatt.
Qed.

Lemma keeps_guarded (P : World → Prop) c q params :
  (∀ w, P w → P (attempted c w)) → (∀ w ms, P w → P (delayed ms w)) →
  (∀ w, P w → P (countSuccess w)) → (∀ w, P w → P (countFailure w)) →
  (∀ w, P w → P (releaseConnection (Some c) w)) →
  keeps P (guarded c q params).
Proof.
  intros Hatt Hdel Hsucc Hfail Hrel. unfold guarded.
  apply keeps_try_finally; [|exact Hrel].
  apply keeps_try_catch.
  - apply keeps_bind.
    { apply (keeps_reading P (fun w0 => retryLoop (Z.to_nat (retryAttempts w0)) 1
               (ThrownValue JSUndefined) c q params)).
      intros w0. by apply keeps_retryLoop. }
    intros r. apply keeps_bind; [by apply keeps_effect | intros _; apply keeps_ret].
  - intros e. apply keeps_bind; [by apply keeps_effect|]. intros _.
    apply keeps_bind; [|intros _; apply keeps_throw].
    unfold reportFailure. destruct (message_unreadable e); [apply keeps_throw | apply keeps_ret].
Qed.

(** The tail of [transaction] once a connection is acquired keeps what
    its callback and the marking and releasing of the connection keep. *)
Lemma keeps_transaction_tail {A} (P : World → Prop) (f : nat → Async A) c :
  (∀ w ms, P w → P (advance ms w)) → (∀ w e, P w → P (log e w)) →
  (∀ w b, P w → P (markTransaction b c w)) →
  (∀ w, P w → P (releaseConnection (Some c) w)) →
  keeps P (f c) →
  keeps P
    (try_finally
       (try_catch
          (beginTransaction c ;;
           result <- (effect (log (EvCallback c)) ;; f c) ;;
           commitTransaction c ;;
           ret result)
          (fun error => rollbackTransaction c ;; throw error))
       (releaseConnection (Some c))).
Proof.
  intros Hadv Hlog Hmark Hrel Hf.
  apply keeps_try_finally; [|exact Hrel].
  apply keeps_try_catch.
  - apply keeps_bind.
    { apply keeps_bind; [apply keeps_effect; intros w; apply Hadv|]. intros _.
      apply keeps_effect. intros w. apply Hmark. }
    intros _. apply keeps_bind.
    { apply keeps_bind; [apply keeps_effect; intros w; apply Hlog|]. intros _. exact Hf. }
    intros a. apply keeps_bind; [|intros _; apply keeps_ret].
    apply keeps_bind; [apply keeps_effect; intros w; apply Hadv|]. intros _.
    apply keeps_effect. intros w. apply Hmark.
  - intros e. apply keeps_bind; [|intros _; apply keeps_throw].
    apply keeps_bind; [apply keeps_effect; intros w; apply Hadv|]. intros _.
    apply keeps_effect. intros w. apply Hmark.
Qed.

(** The pool of a fresh manager is well formed, and [configure],
    [connect], [disconnect], [query] and [transaction] (with a callback
    that does the same) leave a well-formed pool well formed: every entry
    is filed under the id of the connection object it holds, and no
    object is filed twice. *)
Theorem pool_stays_well_formed :
  (∀ t cd qd sd, wf (constructor t cd qd sd)) ∧
  (∀ o w, wf w → wf (configure o w)) ∧
  keeps wf connect ∧ keeps wf disconnect ∧
  (∀ q params, keeps wf (query q params)) ∧
  (∀ A (f : nat → Async A),
     (∀ c, keeps wf (f c)) → keeps wf (transaction (AsyncFunction f))).
Proof.
  split; [apply wf_constructor|]. split; [by intros o w Hwf|].
  split; [apply keeps_wf_connect|]. split; [apply keeps_wf_disconnect|].
  split; [apply keeps_wf_query|].
  intros A f Hf. apply keeps_wf_transaction. intros f' c [= <-]. apply Hf.
Qed.

Lemma pool_stays_well_formed_witness :
  wf (calm 0) ∧
  final (query (JSString "SELECT 1") [] (calm 0))
    = Some (after (query (JSString "SELECT 1") []) (calm 0)) ∧
  wf (after (query (JSString "SELECT 1") []) (calm 0)) ∧
  length (connectionPool (after (query (JSString "SELECT 1") []) (calm 0))) = 3%nat.
Proof.
  destruct pool_stays_well_formed as (Hnew & _ & _ & _ & Hq & _).
  assert (H1 : wf (calm 0)) by apply Hnew.
  assert (H2 : final (query (JSString "SELECT 1") [] (calm 0))
               = Some (after (query (JSString "SELECT 1") []) (calm 0)))
    by (vm_compute; reflexivity).
  split; [exact H1|]. split; [exact H2|].
  split; [exact (Hq (JSString "SELECT 1") [] _ _ H1 H2)|].
  vm_compute. reflexivity.
Defined.

Lemma gauge_release h w : gauge w → gauge (releaseConnection h w).
Proof.
  intros Hg. unfold gauge.
  by destruct (release_keeps_log_and_stats h w) as (_ & -> & -> & _).
Qed.

Lemma gauge_markTransaction b c w : gauge w → gauge (markTransaction b c w).
Proof. done. Qed.

Lemma keeps_gauge_getConnection : keeps gauge getConnection.
Proof.
  intros w w' Hg. pose proof (getConnection_cases w) as Hcases.
  destruct (findAvailable _ _) as [r|].
  - rewrite Hcases. by intros [= <-].
  - destruct (poolNotFull w); rewrite Hcases; [|done].
    intros [= <-]. unfold addConnection, recordPoolSize, gauge. done.
Qed.

Lemma keeps_gauge_connect : keeps gauge connect.
Proof.
  assert (Hbody : keeps gauge
    (effect (set_connectionState CONNECTING) ;;
     emit "connecting" ;;
     try_catch
       (simulateConnection ;;
        initializeConnectionPool ;;
        effect (set_connectionState CONNECTED) ;;
        emit "connected")
       (fun error =>
          effect (set_connectionState ERROR) ;;
          effect (fun w => set_stats (incr_connectionErrors (stats w)) w) ;;
          emit "error" ;;
          throw error))).
  { apply keeps_bind; [by apply keeps_effect|]. intros _.
    apply keeps_bind; [by apply keeps_effect|]. intros _.
    apply keeps_try_catch.
    - apply keeps_bind.
      { apply keeps_bind; [by apply keeps_effect|]. intros _.
        intros w w' Hg. by destruct (connectDraw w (connectDraws w)); intros [= <-]. }
      intros _. apply keeps_bind.
      { intros w w' _. unfold initializeConnectionPool. unfold bind at 1.
        destruct (initializeLoop_frame (Z.to_nat (Z.min 3 (maxConnections w))) w)
          as (w2 & Hloop & _).
        rewrite Hloop. intros [= <-]. unfold recordPoolSize, gauge. done. }
      intros _. apply keeps_bind; [by apply keeps_effect|]. intros _. by apply keeps_effect.
    - intros e. apply keeps_bind; [by apply keeps_effect|]. intros _.
      apply keeps_bind; [by apply keeps_effect|]. intros _.
      apply keeps_bind; [by apply keeps_effect|]. intros _. apply keeps_throw. }
  intros w w' Hg. unfold connect.
  destruct (connectionState w); try (by intros [= <-]); by apply Hbody.
Qed.

Lemma keeps_gauge_disconnect : keeps gauge disconnect.
Proof.
  intros w w' Hg. destruct (decide (connectionState w = DISCONNECTED)) as [Hs|Hs].
  - unfold disconnect. rewrite Hs. by intros [= <-].
  - destruct (disconnect_cases w Hs) as (w1 & -> & _ & Hp & Ha & _).
    intros [= <-]. unfold gauge. by rewrite Hp, Ha.
Qed.

Lemma keeps_gauge_query q params : keeps gauge (query q params).
Proof.
  unfold query. destruct (negb _ || negb _); [apply keeps_throw|].
  apply keeps_bind; [by apply keeps_effect|]. intros _.
  apply keeps_bind.
  { intros w w' Hg. unfold ensureConnected. case_bool_decide; [|by intros [= <-]].
    by apply keeps_gauge_connect. }
  intros _. apply keeps_bind; [apply keeps_gauge_getConnection|]. intros c.
  apply (keeps_guarded gauge c q params); try done.
  intros w. apply gauge_release.
Qed.

(** The gauge [activeConnections] counts the connections of the pool,
    free or in use: it is the size of the pool on a fresh manager and
    after every [configure], [connect], [disconnect], [query] and
    [transaction] (with a callback that keeps it so), and [getStats]
    then reports it equal to [poolSize]. *)
Theorem gauge_is_pool_size :
  (∀ t cd qd sd, gauge (constructor t cd qd sd)) ∧
  (∀ o w, gauge w → gauge (configure o w)) ∧
  keeps gauge connect ∧ keeps gauge disconnect ∧
  (∀ q params, keeps gauge (query q params)) ∧
  (∀ A (f : nat → Async A),
     (∀ c, keeps gauge (f c)) → keeps gauge (transaction (AsyncFunction f))) ∧
  (∀ w, gauge w → activeConnections (snapshot (getStats w)) = poolSize (getStats w)).
Proof.
  split; [done|]. split; [by intros o w Hg|].
  split; [apply keeps_gauge_connect|]. split; [apply keeps_gauge_disconnect|].
  split; [apply keeps_gauge_query|]. split; [|by intros w Hg].
  intros A f Hf. unfold transaction.
  apply keeps_bind; [apply keeps_gauge_getConnection|]. intros c.
  apply (keeps_transaction_tail gauge f c); try done.
  intros w. apply gauge_release.
Qed.

Lemma gauge_is_pool_size_witness :
  gauge allTaken ∧
  final (getConnection allTaken) = Some (after getConnection allTaken) ∧
  inUseCount (after getConnection allTaken) = 4%nat ∧
  activeConnections (snapshot (getStats (after getConnection allTaken))) = 4 ∧
  poolSize (getStats (after getConnection allTaken)) = 4 ∧
  final (disconnect busy) = Some (after disconnect busy) ∧
  gauge busy ∧ gauge (after disconnect busy).
Proof.
  destruct gauge_is_pool_size as (_ & _ & _ & Hd & _ & _ & Hstats).
  assert (H1 : gauge allTaken) by (vm_compute; reflexivity).
  assert (H2 : final (getConnection allTaken) = Some (after getConnection allTaken))
    by (vm_compute; reflexivity).
  assert (H3 : final (disconnect busy) = Some (after disconnect busy))
    by (vm_compute; reflexivity).
  assert (H4 : gauge busy) by (vm_compute; reflexivity).
  pose proof (keeps_gauge_getConnection _ _ H1 H2) as H5.
  split; [exact H1|]. split; [exact H2|]. split; [vm_compute; reflexivity|].
  split; [vm_compute; reflexivity|].
  split; [rewrite <- (Hstats _ H5); vm_compute; reflexivity|].
  split; [exact H3|]. split; [exact H4|]. exact (Hd _ _ H4 H3).
Defined.











(** ** Callers that overlap never share a connection *)

Lemma addConnection_fresh w :
  let r := length (store w) in
  let w' := addConnection r (newConnection w).2 in
  inUseOf r w' = Some true ∧
  ∀ r', (r' < r)%nat → inUseOf r' w' = inUseOf r' w.
Proof.
  simpl. unfold addConnection, recordPoolSize, inUseOf. simpl.
  set (c := Build_Connection _ _ _ _ _).
  set (w0 := set_store _ _).
  destruct (poolSet_frame (length (store w)) w0) as (-> & _).
  unfold w0. simpl. split.
  - rewrite list_lookup_alter_eq, lookup_app_r by lia. by rewrite Nat.sub_diag.
  - intros r' Hlt. rewrite list_lookup_alter_ne by lia. by rewrite lookup_app_l by lia.
Qed.

Lemma release_other r r' w :
  r' ≠ r → inUseOf r' (releaseConnection (Some r) w) = inUseOf r' w.
Proof.
  intros Hne. unfold releaseConnection, inUseOf.
  destruct (store w !! r); [|done]. destruct (pool_has _ _); [|done].
  simpl. by rewrite list_lookup_alter_ne.
Qed.

Lemma take_other r r' w : r' ≠ r → inUseOf r' (take r w) = inUseOf r' w.
Proof. intros Hne. unfold take, inUseOf. simpl. by rewrite list_lookup_alter_ne. Qed.

Lemma exclusive_insert (cs : list Caller) w i c c' w' :
  exclusive (cs, w) → cs !! i = Some c →
  (∀ r, c' = Holding r →
        inUseOf r w' = Some true ∧ ∀ j, j ≠ i → cs !! j ≠ Some (Holding r)) →
  (∀ j r, j ≠ i → cs !! j = Some (Holding r) → inUseOf r w' = Some true) →
  exclusive (<[i := c']> cs, w').
Proof.
  intros [Huse Hone] Hi Hnew Hold.
  assert (Hlt : (i < length cs)%nat) by (by apply lookup_lt_Some in Hi).
  split; simpl.
  - intros j r Hj. destruct (decide (j = i)) as [->|Hne].
    + rewrite list_lookup_insert_eq in Hj by done. injection Hj as ->.
      by apply (Hnew r).
    + rewrite list_lookup_insert_ne in Hj by done. by apply (Hold j r).
  - intros j k r Hj Hk.
    destruct (decide (j = i)) as [->|Hnej]; destruct (decide (k = i)) as [->|Hnek]; [done| | |].
    + rewrite list_lookup_insert_eq in Hj by done. injection Hj as ->.
      rewrite list_lookup_insert_ne in Hk by done.
      destruct (Hnew r eq_refl) as [_ Hno]. by destruct (Hno k Hnek).
    + rewrite list_lookup_insert_eq in Hk by done. injection Hk as ->.
      rewrite list_lookup_insert_ne in Hj by done.
      destruct (Hnew r eq_refl) as [_ Hno]. by destruct (Hno j Hnej).
    + rewrite list_lookup_insert_ne in Hj, Hk by done. by apply (Hone j k r).
Qed.

Lemma exclusive_found (cs : list Caller) w i c r :
  exclusive (cs, w) → cs !! i = Some c →
  findAvailable (store w) (connectionPool w) = Some r →
  exclusive (<[i := Holding r]> cs, take r w).
Proof.
  intros Hex Hi Hr. destruct (findAvailable_Some _ _ _ Hr) as [_ Hfree].
  assert (Hsome : is_Some (store w !! r)).
  { destruct (store w !! r); [by eexists | done]. }
  assert (Hnone : ∀ j, cs !! j ≠ Some (Holding r)).
  { intros j Hj. destruct Hex as [Huse _]. specialize (Huse j r Hj).
    unfold inUseOf in Huse. simpl in Huse. congruence. }
  apply (exclusive_insert cs w i c); [done|done| |].
  - intros r0 [= <-]. split; [by apply take_spec | intros j _; apply Hnone].
  - intros j r0 Hne Hj. destruct (decide (r0 = r)) as [->|Hr0]; [by destruct (Hnone j)|].
    rewrite take_other by done. destruct Hex as [Huse _]. by apply (Huse j).
Qed.

Lemma exclusive_same (cs : list Caller) w i c c' :
  exclusive (cs, w) → cs !! i = Some c → (∀ r, c' ≠ Holding r) →
  exclusive (<[i := c']> cs, w).
Proof.
  intros Hex Hi Hc'. apply (exclusive_insert cs w i c); [done|done| |].
  - intros r ->. by destruct (Hc' r).
  - intros j r _ Hj. destruct Hex as [Huse _]. by apply (Huse j).
Qed.

Lemma exclusive_resume (cs : list Caller) w i c :
  exclusive (cs, w) → cs !! i = Some c →
  exclusive (<[i := (resume c w).1]> cs, (resume c w).2).
Proof.
  intros Hex Hi. destruct c as [|wake|wake|r|]; simpl.
  - unfold checkConnection.
    destruct (findAvailable (store w) (connectionPool w)) as [r|] eqn:Hr; simpl.
    + by apply (exclusive_found cs w i Calling).
    + destruct (poolNotFull w); simpl; by apply (exclusive_same cs w i Calling).
  - destruct (now w <? wake); simpl; [by apply (exclusive_same cs w i (Creating wake))|].
    destruct (addConnection_fresh w) as [Hnew Hold].
    apply (exclusive_insert cs w i (Creating wake)); [done|done| |].
    + intros r [= <-]. split; [exact Hnew|].
      intros j _ Hj. destruct Hex as [Huse _]. specialize (Huse j _ Hj).
      unfold inUseOf in Huse. simpl in Huse. rewrite lookup_ge_None_2 in Huse; done.
    + intros j r _ Hj. destruct Hex as [Huse _]. specialize (Huse j _ Hj). simpl in Huse.
      rewrite Hold; [done|].
      unfold inUseOf in Huse. destruct (store w !! r) eqn:Hx; [|done].
      by apply lookup_lt_Some in Hx.
  - destruct (now w <? wake); simpl; [by apply (exclusive_same cs w i (Waiting wake))|].
    unfold checkConnection.
    destruct (findAvailable (store w) (connectionPool w)) as [r|] eqn:Hr; simpl.
    + by apply (exclusive_found cs w i (Waiting wake)).
    + by apply (exclusive_same cs w i (Waiting wake)).
  - apply (exclusive_insert cs w i (Holding r)); [done|done|done|].
    intros j r' Hne Hj. destruct Hex as [Huse Hone].
    assert (r' ≠ r) by (intros ->; by apply Hne, (Hone j i r)).
    change (inUseOf r' (releaseConnection (Some r) w) = Some true).
    rewrite (release_other r r' w) by done. by apply (Huse j).
  - by apply (exclusive_same cs w i Done).
Qed.

Lemma exclusive_move st m : exclusive st → exclusive (move st m).
Proof.
  destruct st as [cs w]. intros Hex. destruct m as [ms|i]; simpl.
  - done.
  - destruct (cs !! i) as [c|] eqn:Hi; [|done].
    pose proof (exclusive_resume cs w i c Hex Hi) as Hres.
    by destruct (resume c w).
Qed.

Lemma lookup_repeat_Calling n : ∀ i c, repeat Calling n !! i = Some c → c = Calling.
Proof.
  induction n as [|n IH]; intros i c; simpl; [done|].
  destruct i as [|i]; simpl; [by intros [= <-] | apply IH].
Qed.

(** However the callers are interleaved, no connection is ever held by
    two of them at once, and every connection held is marked in use: this
    holds from a start where nobody holds a connection, after any
    schedule of resumptions and delays. *)
Theorem callers_never_share (schedule : list Move) (n : nat) (w : World) :
  exclusive (run schedule (repeat Calling n, w)) ∧
  ∀ st, exclusive st → exclusive (run schedule st).
Proof.
  assert (Hrun : ∀ st, exclusive st → exclusive (run schedule st)).
  { unfold run. induction schedule as [|m schedule IH]; intros st Hex; simpl; [done|].
    apply IH. by apply exclusive_move. }
  split; [|exact Hrun]. apply Hrun. split; simpl.
  - intros i r Hi. by apply lookup_repeat_Calling in Hi.
  - intros i j r Hi. by apply lookup_repeat_Calling in Hi.
Qed.

Lemma callers_never_share_witness :
  exclusive (run (map Resume (seq 0 11) ++ [Elapse 100] ++ map Resume (seq 3 8))
                 (repeat Calling 11, connected)) ∧
  (run (map Resume (seq 0 11) ++ [Elapse 100] ++ map Resume (seq 3 8))
       (repeat Calling 11, connected)).1 = map Holding (seq 0 11).
Proof.
  split.
  - exact (proj1 (callers_never_share
             (map Resume (seq 0 11) ++ [Elapse 100] ++ map Resume (seq 3 8)) 11 connected)).
  - vm_compute. reflexivity.
Defined.

(** ** How long the retries take *)

Lemma settle_inj ok q params w w' :
  settle ok q params w = settle ok q params w' → w = w'.
Proof. destruct ok; simpl; by intros [= ->]. Qed.

Lemma retryLoop_elapsed j : ∀ a n lastError c q params w ok w',
  drawsRun w a j ok → Z.of_nat (a + n) = retryAttempts w + 1 →
  retryLoop n (Z.of_nat a) lastError c q params w = settle ok q params w' →
  now w' - now w = 200 * Z.of_nat (S j) + waits (retryDelay w) a j.
Proof.
  induction j as [|j IH]; intros a n lastError c q params w ok w'
    (Hfail & Hlast & Hle & Hend) Hn Hrun.
  - destruct n as [|n]; [lia|]. rewrite Nat.add_0_r in *.
    destruct ok.
    + rewrite retryLoop_succeeds in Hrun by done. injection Hrun as <-.
      unfold attempted. simpl. fixed_timers. lia.
    + specialize (Hend eq_refl).
      rewrite retryLoop_retries in Hrun by done.
      replace (Z.of_nat a <? retryAttempts w) with false in Hrun
        by (symmetry; apply Z.ltb_ge; lia).
      destruct n; [|lia]. simpl in Hrun. injection Hrun as <-.
      unfold attempted. simpl. fixed_timers. lia.
  - destruct n as [|n]; [lia|].
    assert (Hd : queryDraw w (queryDraws w) = false).
    { rewrite <- (Hfail 0%nat) by lia. f_equal. lia. }
    rewrite retryLoop_retries in Hrun by done.
    replace (Z.of_nat a <? retryAttempts w) with true in Hrun
      by (symmetry; apply Z.ltb_lt; lia).
    replace (Z.of_nat a + 1) with (Z.of_nat (S a)) in Hrun by lia.
    set (w2 := delayed _ _) in Hrun.
    assert (H2 : now w' - now w2 = 200 * Z.of_nat (S j) + waits (retryDelay w2) (S a) j).
    { apply (IH (S a) n (Error "Query execution failed") c q params w2 ok w'); [| |done].
      - subst w2. repeat split; simpl.
        + intros i Hi. rewrite <- (Hfail (S i)) by lia. f_equal. lia.
        + rewrite <- Hlast. f_equal. lia.
        + lia.
        + intros Hok. rewrite <- (Hend Hok). lia.
      - subst w2. simpl. lia. }
    assert (Hnow2 : now w2 = now w + 200 + timerDuration (retryDelay w * Z.of_nat a)).
    { subst w2. unfold delayed, attempted. simpl. fixed_timers. lia. }
    replace (retryDelay w2) with (retryDelay w) in H2 by done.
    cbn [waits]. lia.
Qed.

(** Delays within the range of a timer last what they say. *)
Lemma waits_in_range d j : ∀ a,
  1 ≤ d → (1 ≤ a)%nat → d * (Z.of_nat a + Z.of_nat j - 1) ≤ 2147483647 →
  2 * waits d a j = d * twiceAttemptSum a j.
Proof.
  unfold twiceAttemptSum.
  induction j as [|j IH]; intros a Hd Ha Hmax; cbn [waits]; [lia|].
  assert (Hin : timerDuration (d * Z.of_nat a) = d * Z.of_nat a).
  { unfold timerDuration.
    replace (1 <=? d * Z.of_nat a) with true by (symmetry; apply Z.leb_le; nia).
    replace (d * Z.of_nat a <=? 2147483647) with true by (symmetry; apply Z.leb_le; nia).
    done. }
  specialize (IH (S a) Hd). rewrite Hin. nia.
Qed.

(** Delays out of the range of a timer last 1 ms each. *)
Lemma waits_clamped d j : ∀ a,
  (1 ≤ a)%nat → d ≤ 0 ∨ 2147483647 < d → waits d a j = Z.of_nat j.
Proof.
  induction j as [|j IH]; intros a Ha Hd; cbn [waits]; [done|].
  rewrite IH by (lia || done).
  assert (Hout : timerDuration (d * Z.of_nat a) = 1).
  { unfold timerDuration. destruct Hd as [Hd|Hd].
    - replace (1 <=? d * Z.of_nat a) with false by (symmetry; apply Z.leb_gt; nia). done.
    - replace (d * Z.of_nat a <=? 2147483647) with false
        by (symmetry; apply Z.leb_gt; nia).
      by rewrite andb_false_r. }
  lia.
Qed.

(** A retried unit of work that makes [j] failed attempts and a last
    attempt takes 200 ms per attempt plus the time of the timers set
    after the failed attempts, [retryDelay * k] after attempt [k]. With
    delays in the range of a timer ([1 ≤ retryDelay] and
    [retryDelay * j ≤ 2^31 - 1]) that is [retryDelay * (1 + 2 + ... + j)]:
    twice the time elapsed is [400 * (j + 1) + retryDelay * j * (j + 1)].
    With [retryDelay] zero, negative or above [2^31 - 1] every such timer
    takes 1 ms, and the time elapsed is [200 * (j + 1) + j]. *)
Theorem retries_elapsed (c : nat) (q : JSValue) (params : list JSValue)
    (w w' : World) (j : nat) (ok : bool) :
  drawsRun w 1 j ok →
  executeQueryWithRetry c q params w = settle ok q params w' →
  now w' - now w = 200 * (Z.of_nat j + 1) + waits (retryDelay w) 1 j ∧
  (1 ≤ retryDelay w → retryDelay w * Z.of_nat j ≤ 2147483647 →
   2 * (now w' - now w)
     = 400 * (Z.of_nat j + 1) + retryDelay w * Z.of_nat j * (Z.of_nat j + 1)) ∧
  (retryDelay w ≤ 0 ∨ 2147483647 < retryDelay w →
   now w' - now w = 200 * (Z.of_nat j + 1) + Z.of_nat j).
Proof.
  intros Hrun Hex. unfold executeQueryWithRetry in Hex.
  pose proof Hrun as (_ & _ & Hle & _).
  assert (Hel : now w' - now w = 200 * Z.of_nat (S j) + waits (retryDelay w) 1 j).
  { apply (retryLoop_elapsed j 1 (Z.to_nat (retryAttempts w)) (ThrownValue JSUndefined)
             c q params w ok w' Hrun); [lia | done]. }
  split; [lia|]. split.
  - intros Hd Hmax.
    pose proof (waits_in_range (retryDelay w) j 1 Hd) as Hw.
    unfold twiceAttemptSum in Hw. change (Z.of_nat 1) with 1 in Hw.
    specialize (Hw ltac:(lia) ltac:(lia)). nia.
  - intros Hd. rewrite Hel, (waits_clamped (retryDelay w) j 1) by (lia || done). lia.
Qed.

Lemma retries_elapsed_witness :
  drawsRun stormy 1 2 false ∧
  executeQueryWithRetry 0 (JSString "SELECT 1") [] stormy
    = settle false (JSString "SELECT 1") []
        (after (executeQueryWithRetry 0 (JSString "SELECT 1") []) stormy) ∧
  1 ≤ retryDelay stormy ∧ retryDelay stormy * Z.of_nat 2 ≤ 2147483647 ∧
  now (after (executeQueryWithRetry 0 (JSString "SELECT 1") []) stormy) - now stormy = 3600.
Proof.
  assert (H1 : drawsRun stormy 1 2 false).
  { unfold drawsRun. split; [|split; [|split]].
    - intros i _. reflexivity.
    - reflexivity.
    - vm_compute. discriminate.
    - intros _. vm_compute. reflexivity. }
  assert (H2 : executeQueryWithRetry 0 (JSString "SELECT 1") [] stormy
    = settle false (JSString "SELECT 1") []
        (after (executeQueryWithRetry 0 (JSString "SELECT 1") []) stormy))
    by (vm_compute; reflexivity).
  assert (H3 : 1 ≤ retryDelay stormy) by (vm_compute; discriminate).
  assert (H4 : retryDelay stormy * Z.of_nat 2 ≤ 2147483647) by (vm_compute; discriminate).
  pose proof (proj1 (proj2 (retries_elapsed 0 (JSString "SELECT 1") [] stormy _ 2 false
                              H1 H2)) H3 H4) as Hel.
  split; [exact H1|]. split; [exact H2|]. split; [exact H3|]. split; [exact H4|].
  replace (retryDelay stormy) with 1000 in Hel by (vm_compute; reflexivity).
  lia.
Defined.

(** ** Which connection is taken *)

Lemma findAvailable_first s (p : Pool) r :
  findAvailable s p = Some r →
  ∃ before k after, p = before ++ (k, r) :: after ∧ Forall (taken s) before.
Proof.
  induction p as [|[k r'] p IH]; simpl; [done|].
  destruct (s !! r') as [c|] eqn:Hc.
  - destruct (inUse c) eqn:Hu.
    + intros H. destruct (IH H) as (before & k' & after & -> & Htaken).
      exists ((k, r') :: before), k', after. split; [done|].
      apply Forall_cons. split; [|done]. unfold taken. simpl. rewrite Hc. simpl. congruence.
    + intros [= <-]. exists [], k, p. split; [done | apply Forall_nil_2].
  - intros H. destruct (IH H) as (before & k' & after & -> & Htaken).
    exists ((k, r') :: before), k', after. split; [done|].
    apply Forall_cons. split; [|done]. unfold taken. simpl. by rewrite Hc.
Qed.

Lemma getConnection_in_use w c w1 :
  getConnection w = Resolved c w1 → inUseOf c w1 = Some true.
Proof.
  intros Hg. pose proof (getConnection_cases w) as Hcases.
  destruct (findAvailable _ _) as [r|] eqn:Hr.
  - rewrite Hg in Hcases. injection Hcases as -> ->.
    destruct (findAvailable_Some _ _ _ Hr) as [_ Hfree].
    apply take_spec. destruct (store w !! r); [by eexists | done].
  - destruct (poolNotFull w); rewrite Hg in Hcases; [|done].
    injection Hcases as -> ->. by destruct (addConnection_new w) as (_ & _ & ? & _).
Qed.

(** When [#getConnection] hands out a connection that existed already,
    it is the first free one in the order the pool was filled: it was
    free, and every entry of the pool before it is in use. A connection is
    created only when no entry at all is free. *)
Theorem getConnection_takes_first (w : World) (r : nat) (w' : World) :
  getConnection w = Resolved r w' →
  (is_Some (store w !! r) →
     inUseOf r w = Some false ∧
     ∃ before k after, connectionPool w = before ++ (k, r) :: after ∧
                       Forall (taken (store w)) before) ∧
  (store w !! r = None → Forall (taken (store w)) (connectionPool w)).
Proof.
  intros Hg. pose proof (getConnection_cases w) as Hcases.
  destruct (findAvailable _ _) as [r0|] eqn:Hr.
  - rewrite Hg in Hcases. injection Hcases as -> _.
    destruct (findAvailable_Some _ _ _ Hr) as [_ Hfree].
    split.
    + intros _. split; [exact Hfree|]. by apply findAvailable_first.
    + intros Hnone. unfold inUseOf in Hfree. by rewrite Hnone in Hfree.
  - destruct (poolNotFull w); rewrite Hg in Hcases; [|done].
    injection Hcases as -> _. split.
    + intros [x Hx]. apply lookup_lt_Some in Hx. lia.
    + intros _. apply Forall_forall. intros [k r'] Hin.
      exact (findAvailable_None _ _ _ _ Hr Hin).
Qed.

Lemma getConnection_takes_first_witness :
  getConnection busy = Resolved 1%nat (after getConnection busy) ∧
  is_Some (store busy !! 1%nat) ∧
  inUseOf 1 busy = Some false ∧
  ∃ before k after, connectionPool busy = before ++ (k, 1%nat) :: after ∧
                    Forall (taken (store busy)) before.
Proof.
  assert (H1 : getConnection busy = Resolved 1%nat (after getConnection busy))
    by (vm_compute; reflexivity).
  assert (H2 : is_Some (store busy !! 1%nat)) by (vm_compute; eexists; reflexivity).
  destruct (getConnection_takes_first busy 1 _ H1) as (Hfound & _).
  destruct (Hfound H2) as (Hfree & Hfirst).
  split; [exact H1|]. split; [exact H2|]. split; [exact Hfree|]. exact Hfirst.
Defined.

(** ** The commit path *)

Lemma release_keeps_clock h w : now (releaseConnection h w) = now w.
Proof.
  unfold releaseConnection. destruct h as [r|]; [|done].
  destruct (store w !! r); [|done]. by destruct (pool_has _ _).
Qed.

(** While the callback of a transaction runs, its connection is marked
    in use and [transactionActive]. When the callback returns, the
    transaction resolves with the same value 50 ms later, having logged
    nothing more, with [transactionActive] cleared, and with the
    connection free again if the pool still tracks it. *)
Theorem transaction_commits (A : Type) (f : nat → Async A)
    (w : World) (c : nat) (w1 w2 : World) (a : A) :
  getConnection w = Resolved c w1 →
  f c (begun c w1) = Resolved a w2 →
  inUseOf c (begun c w1) = Some true ∧
  transactionActiveOf c (begun c w1) = Some (Some true) ∧
  ∃ w', transaction (AsyncFunction f) w = Resolved a w' ∧
        trace w' = trace w2 ∧ now w' = now w2 + 50 ∧
        (is_Some (store w2 !! c) → transactionActiveOf c w' = Some (Some false)) ∧
        (tracked c w2 = true → tracked c w' = true ∧ inUseOf c w' = Some false).
Proof.
  intros Hg Hf. pose proof (getConnection_in_use w c w1 Hg) as Hu.
  assert (Hsome : ∃ x, store w1 !! c = Some x ∧ inUse x = true).
  { unfold inUseOf in Hu. destruct (store w1 !! c) as [x|]; [|done].
    exists x. split; [done|]. by injection Hu. }
  destruct Hsome as (x & Hx & Hxu).
  split; [|split].
  - unfold begun, inUseOf, markTransaction. simpl. by rewrite list_lookup_alter_eq, Hx; simpl; rewrite Hxu.
  - unfold begun, transactionActiveOf, markTransaction. simpl.
    by rewrite list_lookup_alter_eq, Hx.
  - rewrite (transaction_run f w c w1 Hg), Hf.
    destruct (ended_releases c w2) as (Ht & Hrel & Hflag & Hpool & Htrace).
    exists (ended c w2). split; [done|]. split; [done|].
    split.
    { unfold ended. rewrite release_keeps_clock. simpl. fixed_timers. lia. }
    split; [done|]. intros Htracked. split; [by rewrite Ht | by apply Hrel].
Qed.

Lemma transaction_commits_witness :
  getConnection connected = Resolved 0%nat busy ∧
  twoQueries 0%nat (begun 0 busy) =
    Resolved (exampleRows (JSString "UPDATE") []) (after (twoQueries 0%nat) (begun 0 busy)) ∧
  tracked 0 (after (twoQueries 0%nat) (begun 0 busy)) = true ∧
  ∃ w', transaction (AsyncFunction twoQueries) connected
          = Resolved (exampleRows (JSString "UPDATE") []) w' ∧
        inUseOf 0 w' = Some false.
Proof.
  assert (H1 : getConnection connected = Resolved 0%nat busy) by (vm_compute; reflexivity).
  assert (H2 : twoQueries 0%nat (begun 0 busy) =
    Resolved (exampleRows (JSString "UPDATE") []) (after (twoQueries 0%nat) (begun 0 busy)))
    by (vm_compute; reflexivity).
  assert (H3 : tracked 0 (after (twoQueries 0%nat) (begun 0 busy)) = true)
    by (vm_compute; reflexivity).
  destruct (transaction_commits _ twoQueries connected 0 busy _ _ H1 H2)
    as (_ & _ & w' & Hres & _ & _ & _ & Hidle).
  split; [exact H1|]. split; [exact H2|]. split; [exact H3|].
  exists w'. split; [exact Hres|]. exact (proj2 (Hidle H3)).
Defined.

(** ** [query] leaks no connection *)







(** ** What [query] can throw *)

(** A query rejects with one of four errors only: the one for a bad
    argument, the one of a failed reconnection, the one of the last failed
    attempt, or, when no attempt at all is allowed ([retryAttempts] not
    positive), a [TypeError] from reading [message] off the [undefined]
    it threw. On a connected manager that allows an attempt, only the
    first and the third are possible. *)
Theorem query_rejections (q : JSValue) (params : list JSValue) (w : World)
    (e : Thrown) (w' : World) :
  query q params w = Rejected e w' →
  (e = Error "Query must be a non-empty string" ∨
   e = Error "Connection timeout" ∨
   e = Error "Query execution failed" ∨
   e = TypeError "Cannot read properties of undefined (reading 'message')") ∧
  (connectionState w = CONNECTED → 1 ≤ retryAttempts w →
   e = Error "Query must be a non-empty string" ∨ e = Error "Query execution failed").
Proof.
  unfold query. destruct (negb _ || negb _).
  { intros [= <- _]. split; [by left | by left]. }
  unfold bind at 1. unfold effect at 1. unfold bind at 1.
  destruct (ensureConnected (countQuery w)) as [u w0|e0 w0|] eqn:Hens; [| |done].
  - unfold bind at 1.
    destruct (getConnection w0) as [c w1|e1 w1|] eqn:Hg; [| |done].
    + intros Hrej. change (guarded c q params w1 = Rejected e w') in Hrej.
      apply guarded_rejects in Hrej. split.
      * destruct Hrej as [->|[-> _]]; [right; right; by left | by repeat right].
      * intros Hs Hpos. right. destruct Hrej as [->|[_ Hle]]; [done|].
        unfold ensureConnected in Hens.
        rewrite bool_decide_eq_false_2 in Hens by (simpl; rewrite Hs; naive_solver).
        injection Hens as <-.
        destruct (getConnection_frame _ _ _ Hg) as (Hset & _).
        assert (retryAttempts w1 = retryAttempts w)
          by (subst w0; unfold settings in Hset; simpl in Hset; congruence).
        lia.
    + by destruct (getConnection_never_rejects w0 e1 w1).
  - intros [= <- _]. unfold ensureConnected in Hens. case_bool_decide as Hstate; [|done].
    apply connect_rejects in Hens as ->. split; [right; by left|].
    intros Hs _. by destruct Hstate.
Qed.

Lemma query_rejections_witness :
  query (JSString "SELECT 1") [] stormy
    = Rejected (Error "Query execution failed")
        (after (query (JSString "SELECT 1") []) stormy) ∧
  connectionState stormy = CONNECTED ∧ 1 ≤ retryAttempts stormy ∧
  (Error "Query execution failed" = Error "Query must be a non-empty string" ∨
   Error "Query execution failed" = Error "Query execution failed").
Proof.
  assert (H1 : query (JSString "SELECT 1") [] stormy
    = Rejected (Error "Query execution failed")
        (after (query (JSString "SELECT 1") []) stormy)) by (vm_compute; reflexivity).
  assert (H2 : connectionState stormy = CONNECTED) by (vm_compute; reflexivity).
  assert (H3 : 1 ≤ retryAttempts stormy) by (vm_compute; discriminate).
  split; [exact H1|]. split; [exact H2|]. split; [exact H3|].
  exact (proj2 (query_rejections _ _ _ _ _ H1) H2 H3).
Defined.
